(** * spateo: NB-mixture EM and instance labelling

    A shallow embedding of
      - [spateo/preprocessing/segmentation/em.py]    (module [Em])
      - [spateo/preprocessing/segmentation/label.py] (module [Label])

    Conventions.
    - numpy [float64] values and Python [float]s are IEEE-754 binary64:
      Rocq's primitive [float], operation for operation.
    - numpy arrays are a shape and a flat row-major buffer ([ndarray]).
    - Python exceptions are the [Raise] results of the [result] monad.
    - Numeric kernels that live in scipy/numpy/skimage/cv2 (the NB pmf,
      digamma, the natural logarithm, numpy's summation order, the random
      generator, connected components, ...) are [Variable]s of the section
      that models the function calling them; concrete stand-ins, used to run
      the code on explicit inputs, are collected in module [Lib]. *)

From Stdlib Require Import ZArith QArith Bool Lia Floats Uint63.
From stdpp Require Import base list sorting.

Set Default Proof Using "Type".
#[local] Set Warnings "-inexact-float".

(* ===================================================================== *)
(** * Python results and exceptions *)
(* ===================================================================== *)

Inductive exn : Set :=
  | UnboundLocalError
  | PreprocessingError
  | ZeroDivisionError
  | ValueError
  | OverflowError
  | KeyError.

Inductive result (A : Type) : Type :=
  | Ok (a : A)
  | Raise (e : exn).
Arguments Ok {A} a.
Arguments Raise {A} e.

#[global] Instance result_ret : MRet result := λ A a, Ok a.
#[global] Instance result_bind : MBind result := λ A B k m,
  match m with
  | Ok a => k a
  | Raise e => Raise e
  end.

#[global] Instance result_fmap : FMap result := λ A B f m,
  match m with
  | Ok a => Ok (f a)
  | Raise e => Raise e
  end.

(* ===================================================================== *)
(** * numpy arrays *)
(* ===================================================================== *)

(** A two-dimensional array: [rows × cols] elements in row-major order.
    One-dimensional sample arrays are plain lists. *)
Record ndarray (A : Type) : Type := NdArray {
  rows : nat;
  cols : nat;
  flat : list A
}.
Arguments NdArray {A} rows cols flat.
Arguments rows {A} _.
Arguments cols {A} _.
Arguments flat {A} _.

(** An array with the shape of [a] and the buffer [l]. *)
Definition with_flat {A B} (a : ndarray A) (l : list B) : ndarray B :=
  NdArray (rows a) (cols a) l.

Definition nd_map {A B} (f : A → B) (a : ndarray A) : ndarray B :=
  with_flat a (f <$> flat a).

(** [np.where(P(a))], as the list of flat positions, in raster order:
    the positions from [i] on, for the buffer [l] that starts at [i]. *)
Fixpoint where_from {A} (P : A → bool) (i : nat) (l : list A) : list nat :=
  match l with
  | [] => []
  | x :: l' => if P x then i :: where_from P (S i) l' else where_from P (S i) l'
  end.

Definition where_ {A} (P : A → bool) (l : list A) : list nat :=
  where_from P 0 l.

(** [a[where] = v]: one write per position. *)
Definition assign_at {A} (ps : list nat) (v : A) (l : list A) : list A :=
  foldl (λ acc i, <[i := v]> acc) l ps.

(** [a[where] = b[where]]. *)
Definition assign_from {A} (ps : list nat) (src : list A) (l : list A) : list A :=
  foldl (λ acc i, match src !! i with
                  | Some v => <[i := v]> acc
                  | None => acc
                  end) l ps.

(* ===================================================================== *)
(** * Python dicts *)
(* ===================================================================== *)

(** A dict is its items in insertion order. *)
Definition dict (K V : Type) : Type := list (K * V).

Section Dict.
Context {K V : Type} `{EqDecision K}.

(** [d[k] = v]: an existing key keeps its place. *)
Fixpoint dict_set (k : K) (v : V) (d : dict K V) : dict K V :=
  match d with
  | [] => [(k, v)]
  | (k', v') :: d' =>
      if decide (k = k') then (k', v) :: d' else (k', v') :: dict_set k v d'
  end.

(** [d[k]] *)
Fixpoint dict_get (k : K) (d : dict K V) : result V :=
  match d with
  | [] => Raise KeyError
  | (k', v) :: d' => if decide (k = k') then Ok v else dict_get k d'
  end.
End Dict.

(** [d.setdefault(k, []).append(x)] *)
Fixpoint dict_append {K A} `{EqDecision K} (k : K) (x : A)
    (d : dict K (list A)) : dict K (list A) :=
  match d with
  | [] => [(k, [x])]
  | (k', v') :: d' =>
      if decide (k = k') then (k', v' ++ [x]) :: d' else (k', v') :: dict_append k x d'
  end.

(* ===================================================================== *)
(** * binary64 helpers *)
(* ===================================================================== *)

Module F.

(** [int(f)] on a Python float: truncation toward zero. *)
Definition to_int (f : float) : result Z :=
  match Prim2SF f with
  | S754_nan => Raise ValueError
  | S754_infinity _ => Raise OverflowError
  | S754_zero _ => Ok 0%Z
  | S754_finite s m e =>
      let mag := Z.shiftl (Z.pos m) e in
      Ok (if s then (- mag)%Z else mag)
  end.

(** [f == z] for a Python float and a Python int: the comparison is
    exact (no conversion of [z] to a float). *)
Definition eq_int (f : float) (z : Z) : bool :=
  match Prim2SF f with
  | S754_nan | S754_infinity _ => false
  | S754_zero _ => (z =? 0)%Z
  | S754_finite s m e =>
      let sm := if s then Z.neg m else Z.pos m in
      if (0 <=? e)%Z then (Z.shiftl sm e =? z)%Z
      else (sm =? Z.shiftl z (- e))%Z
  end.

(** [float(z)]: round to nearest, ties to even; [OverflowError] beyond
    the binary64 range. *)
Definition of_nonneg (z : Z) : float :=
  let n := (Z.log2 z + 1)%Z in
  if (n <=? 53)%Z then PrimFloat.of_uint63 (Uint63.of_Z z)
  else
    let sh := (n - 53)%Z in
    let q := Z.shiftr z sh in
    let rem := (z - Z.shiftl q sh)%Z in
    let half := Z.shiftl 1 (sh - 1) in
    let q' := if (half <? rem)%Z || ((rem =? half)%Z && Z.odd q)
              then (q + 1)%Z else q in
    Z.ldexp (PrimFloat.of_uint63 (Uint63.of_Z q')) sh.

Definition of_int (z : Z) : result float :=
  let f := of_nonneg (Z.abs z) in
  if PrimFloat.is_infinity f then Raise OverflowError
  else Ok (if (z <? 0)%Z then PrimFloat.opp f else f).

(** Lengths of in-memory arrays are far below [2^53]: exact. *)
Definition of_len (n : nat) : float :=
  PrimFloat.of_uint63 (Uint63.of_Z (Z.of_nat n)).

(** [0 <= x <= 1] as numpy evaluates it: false on NaN. *)
Definition in_unit (x : float) : bool :=
  PrimFloat.leb 0%float x && PrimFloat.leb x 1%float.

(** [np.maximum]-style reduction of a two-element array: NaN wins. *)
Definition np_max2 (a b : float) : float :=
  if PrimFloat.is_nan a then a
  else if PrimFloat.is_nan b then b
  else if PrimFloat.ltb a b then b else a.

(** Python's builtin [max(a, b, c)]: keep the running maximum, replace
    it when the next item compares greater. *)
Definition py_max3 (a b c : float) : float :=
  let m := if PrimFloat.ltb a b then b else a in
  if PrimFloat.ltb m c then c else m.

End F.

(* ===================================================================== *)
(** * The arithmetic the E-step runs on *)
(* ===================================================================== *)

(** The E-step of [nbn_em] only adds, multiplies, divides and compares.
    It is written once over this interface and run on binary64 (the code)
    and on exact rationals (the arithmetic the specification reasons in). *)
Class Arith (T : Type) : Type := {
  a_one : T;
  a_two : T;
  a_eps : T;                 (* the literal 1e-9 *)
  a_add : T → T → T;
  a_mul : T → T → T;
  a_div : T → T → T;
  a_leb : T → T → bool;      (* x <= y *)
  a_ltb : T → T → bool       (* x <  y *)
}.

#[global] Instance float_arith : Arith float := {|
  a_one := 1%float;
  a_two := 2%float;
  a_eps := 1e-9%float;
  a_add := PrimFloat.add;
  a_mul := PrimFloat.mul;
  a_div := PrimFloat.div;
  a_leb := PrimFloat.leb;
  a_ltb := PrimFloat.ltb
|}.

#[global] Instance Q_arith : Arith Q := {|
  a_one := 1%Q;
  a_two := 2%Q;
  a_eps := (1 # 1000000000)%Q;
  a_add := Qplus;
  a_mul := Qmult;
  a_div := Qdiv;
  a_leb := Qle_bool;
  a_ltb := λ x y, negb (Qle_bool y x)
|}.

(* ===================================================================== *)
(** * em.py *)
(* ===================================================================== *)

Module Em.

(** A pair of per-component values: index 0 = background, 1 = cell. *)
Definition vec2 : Type := float * float.

(** [(w, lam, theta)] inside the loop, [(w, r, p)] in results. *)
Definition params : Type := vec2 * vec2 * vec2.

Section EStep.
Context {T : Type} `{Arith T}.

(** Lines 77-84 of [nbn_em] at one pixel [x]:
<<
    tau[0] = w[0] * bp
    tau[1] = w[1] * cp
    tau[0][(tau.sum(axis=0) <= 1e-9) & (X < mu[0] * 2)] = 1
    tau[1][(tau.sum(axis=0) <= 1e-9) & (X >= mu[0] * 2)] = 1
    tau /= tau.sum(axis=0)
>>
    The second mask is evaluated after the first assignment ("tau
    changes with each line"). [forced] is [tau] before the division. *)
Definition forced (w0 w1 bp cp x mu0 : T) : T * T :=
  let t0 := a_mul w0 bp in
  let t1 := a_mul w1 cp in
  let t0' := if a_leb (a_add t0 t1) a_eps && a_ltb x (a_mul mu0 a_two)
             then a_one else t0 in
  let t1' := if a_leb (a_add t0' t1) a_eps && a_leb (a_mul mu0 a_two) x
             then a_one else t1 in
  (t0', t1').

Definition normalize (t : T * T) : T * T :=
  let s := a_add t.1 t.2 in
  (a_div t.1 s, a_div t.2 s).

Definition e_step_pixel (w0 w1 bp cp x mu0 : T) : T * T :=
  normalize (forced w0 w1 bp cp x mu0).
End EStep.

Section Estimator.
(** scipy / numpy kernels. *)
Variable np_log : float → float.                    (* np.log *)
Variable nbinom_pmf : float → float → float → float. (* stats.nbinom(n, p).pmf(x) *)
Variable digamma : float → float.                   (* special.digamma *)
Variable np_sum : list float → float.               (* ndarray.sum over one axis *)

#[local] Open Scope float_scope.

(** [lamtheta_to_r] *)
Definition lamtheta_to_r (lam theta : float) : float :=
  - lam / np_log theta.

(** [muvar_to_lamtheta] *)
Definition muvar_to_lamtheta (mu var : float) : float * float :=
  let r := mu * mu / (var - mu) in
  let theta := mu / var in
  let lam := - r * np_log theta in
  (lam, theta).

(** [lamtheta_to_muvar] *)
Definition lamtheta_to_muvar (lam theta : float) : float * float :=
  let r := lamtheta_to_r lam theta in
  let mu := r / theta - r in
  let var := mu + mu * mu / r in
  (mu, var).

(** One pass through the body of the [for] loop, lines 74-94: the new
    [(w, lam, theta)] from the current one. *)
Definition em_update (X : list float) (cur : params) : params :=
  let '(w, lam, theta) := cur in
  (* E step *)
  let r0 := lamtheta_to_r lam.1 theta.1 in
  let r1 := lamtheta_to_r lam.2 theta.2 in
  let mu0 := (lamtheta_to_muvar lam.1 theta.1).1 in
  let tau := (λ x, e_step_pixel w.1 w.2 (nbinom_pmf r0 theta.1 x)
                                (nbinom_pmf r1 theta.2 x) x mu0) <$> X in
  let tau0 := fst <$> tau in
  let tau1 := snd <$> tau in
  (* M step *)
  let beta k := 1 - 1 / (1 - k) - 1 / np_log k in
  let delta r := (λ x, r * (digamma (r + x) - digamma r)) <$> X in
  let tau_sum0 := np_sum tau0 in
  let tau_sum1 := np_sum tau1 in
  let total := np_sum [tau_sum0; tau_sum1] in
  let td0 := np_sum (zip_with PrimFloat.mul tau0 (delta r0)) in
  let td1 := np_sum (zip_with PrimFloat.mul tau1 (delta r1)) in
  let den b r t :=
    np_sum (zip_with PrimFloat.mul t
              (zip_with (λ x d, x - (1 - b) * d) X (delta r))) in
  ((tau_sum0 / total, tau_sum1 / total),
   (td0 / tau_sum0, td1 / tau_sum1),
   (beta theta.1 * td0 / den (beta theta.1) r0 tau0,
    beta theta.2 * td1 / den (beta theta.2) r1 tau1)).

(** [np.any(np.isnan(w) | np.isnan(lam) | np.isnan(theta))] *)
Definition has_nan (p : params) : bool :=
  let '(w, lam, theta) := p in
  (PrimFloat.is_nan w.1 || PrimFloat.is_nan lam.1 || PrimFloat.is_nan theta.1)
  || (PrimFloat.is_nan w.2 || PrimFloat.is_nan lam.2 || PrimFloat.is_nan theta.2).

(** [np.abs(a - b).max()] *)
Definition max_abs_diff (a b : vec2) : float :=
  F.np_max2 (abs (a.1 - b.1)) (abs (a.2 - b.2)).

(** [max(|w - prev_w|.max(), |lam - prev_lam|.max(),
         |theta - prev_theta|.max()) < precision] *)
Definition converged (precision : float) (new prev : params) : bool :=
  let '(w, lam, theta) := new in
  let '(pw, plam, ptheta) := prev in
  F.py_max3 (max_abs_diff w pw) (max_abs_diff lam plam)
            (max_abs_diff theta ptheta) <? precision.

(** The local variables that survive the loop. [ls_isnan = None] is
    Python's unbound local: [isnan] is first assigned inside the body. *)
Record loop_state : Type := LoopState {
  ls_cur : params;          (* w, lam, theta *)
  ls_prev : params;         (* prev_w, prev_lam, prev_theta *)
  ls_isnan : option bool
}.

(** [for i in range(max_iter): ...], with [n] iterations left. *)
Fixpoint em_loop (n : nat) (X : list float) (precision : float)
    (st : loop_state) : loop_state :=
  match n with
  | O => st
  | S n' =>
      let new := em_update X (ls_cur st) in
      let isnan := has_nan new in
      if converged precision new (ls_prev st) || isnan
      then LoopState new (ls_prev st) (Some isnan)          (* break *)
      else em_loop n' X precision (LoopState new new (Some isnan))
  end.

(** The state on entry to the loop (lines 62-70). *)
Definition em_init (w mu var : vec2) : loop_state :=
  let lt0 := muvar_to_lamtheta mu.1 var.1 in
  let lt1 := muvar_to_lamtheta mu.2 var.2 in
  let p := (w, (lt0.1, lt1.1), (lt0.2, lt1.2)) in
  LoopState p p None.

(** [(w, lamtheta_to_r(lam, theta), theta)] *)
Definition to_wrp (p : params) : params :=
  let '(w, lam, theta) := p in
  (w, (lamtheta_to_r lam.1 theta.1, lamtheta_to_r lam.2 theta.2), theta).

(** The snapshot line 111 selects; reading the unbound [isnan] raises. *)
Definition em_select (st : loop_state) : result params :=
  match ls_isnan st with
  | None => Raise UnboundLocalError
  | Some true => Ok (ls_prev st)
  | Some false => Ok (ls_cur st)
  end.

(** [nbn_em] *)
Definition nbn_em (X : list float) (w mu var : vec2) (max_iter : Z)
    (precision : float) : result params :=
  to_wrp <$> em_select (em_loop (Z.to_nat max_iter) X precision (em_init w mu var)).

End Estimator.

(** ** The posterior scorer *)

(** [em_results]: one [(w, r, p)] tuple, or a dict from bin label to
    tuple (in insertion order). *)
Inductive em_results : Type :=
  | Single (m : params)
  | PerBin (d : list (Z * params)).

Section Scorer.
Variable nbinom_pmf : float → float → float → float.

#[local] Open Scope float_scope.

(** [np.where(bins == label)] *)
Definition bin_indices (bins : ndarray Z) (label : Z) : list nat :=
  where_ (Z.eqb label) (flat bins).

(** [np.zeros(X.shape)] *)
Definition zeros_like (X : ndarray float) : ndarray float :=
  with_flat X (replicate (length (flat X)) 0).

(** [conditionals]. [bins], when given, has the shape of [X]. *)
Definition conditionals (X : ndarray float) (em : em_results)
    (bins : option (ndarray Z)) : result (ndarray float * ndarray float) :=
  match em with
  | PerBin d =>
      match bins with
      | None => Raise PreprocessingError
      | Some b =>
          let step (acc : list float * list float) (item : Z * params) :=
            let '(label, (_, r, p)) := item in
            let indices := bin_indices b label in
            (assign_from indices (nbinom_pmf r.1 p.1 <$> flat X) acc.1,
             assign_from indices (nbinom_pmf r.2 p.2 <$> flat X) acc.2) in
          let z := flat (zeros_like X) in
          let out := foldl step (z, z) d in
          Ok (with_flat X out.1, with_flat X out.2)
      end
  | Single (_, r, p) =>
      Ok (nd_map (nbinom_pmf r.1 p.1) X, nd_map (nbinom_pmf r.2 p.2) X)
  end.

(** [confidence] *)
Definition confidence (X : ndarray float) (em : em_results)
    (bins : option (ndarray Z)) : result (ndarray float) :=
  '(bp, cp) ← conditionals X em bins;
  tau ← match em with
        | PerBin d =>
            match bins with
            | None => Raise PreprocessingError   (* [conditionals] has raised *)
            | Some b =>
                let step (acc : list float * list float) (item : Z * params) :=
                  let '(label, (w, _, _)) := item in
                  let indices := bin_indices b label in
                  (assign_from indices (PrimFloat.mul w.1 <$> flat bp) acc.1,
                   assign_from indices (PrimFloat.mul w.2 <$> flat cp) acc.2) in
                let z := flat (zeros_like X) in
                Ok (foldl step (z, z) d)
            end
        | Single (w, _, _) =>
            Ok (PrimFloat.mul w.1 <$> flat bp, PrimFloat.mul w.2 <$> flat cp)
        end;
  Ok (with_flat X (zip_with (λ t0 t1, t1 / (t0 + t1)) tau.1 tau.2)).
End Scorer.

(** ** The sampler / binning driver *)

(** [downsample : Union[int, float]] *)
Inductive pynum : Type :=
  | PyInt (z : Z)
  | PyFloat (f : float).

(** [np.unique]: the sorted distinct values. *)
Definition np_unique (l : list Z) : list Z :=
  merge_sort Z.le (remove_dups l).

(** [a[indices]] *)
Definition take_at {A} (ps : list nat) (l : list A) : list A :=
  omap (λ i, l !! i) ps.

Section Driver.
Variable np_log : float → float.
Variable nbinom_pmf : float → float → float → float.
Variable digamma : float → float.
Variable np_sum : list float → float.
(** [feature.peak_local_max(X, min_distance, labels)]: peak positions. *)
Variable peak_local_max : ndarray float → Z → option (ndarray Z) → list nat.
(** [cv2.connectedComponents(b)[1]] *)
Variable connected_components : ndarray bool → ndarray nat.
(** The generator: [np.random.default_rng(s)] for an integer [s], and
    [rng.choice(a, size, replace=False, p=p)], which advances it. *)
Variable rng : Type.
Variable default_rng : Z → rng.
Variable rng_choice : rng → list float → Z → list float → result (list float * rng).

#[local] Open Scope float_scope.

(** [np.random.default_rng(seed)]: with [seed=None] numpy seeds the
    generator from fresh operating-system entropy. *)
Definition make_rng (seed : option Z) (os_entropy : Z) : rng :=
  default_rng (default os_entropy seed).

(** Lines 232-244: one sample per connected blob of peaks, in raster
    order, filed under the bin of the blob's first pixel. *)
Definition peak_samples (X : ndarray float) (min_distance : Z)
    (bins : option (ndarray Z)) : dict Z (list float) :=
  let picks := peak_local_max X min_distance bins in
  let b := with_flat X (assign_at picks true (replicate (length (flat X)) false)) in
  let labels := flat (connected_components b) in
  let visit (st : dict Z (list float) * list nat) (i : nat) :=
    match labels !! i, flat X !! i with
    | Some label, Some x =>
        if (0 <? label)%nat && negb (bool_decide (label ∈ st.2)) then
          let key := match bins with
                     | Some bs => default 0%Z (flat bs !! i)
                     | None => 0%Z
                     end in
          (dict_append key x st.1, label :: st.2)
        else st
    | _, _ => st
    end in
  (foldl visit ([], []) (seq 0 (length labels))).1.

(** Lines 245-249: per nonzero bin, its strictly positive pixels. *)
Definition bin_samples (X : ndarray float) (bins : ndarray Z) : dict Z (list float) :=
  foldl (λ samples label,
           if (0 <? label)%Z then
             let _samples := take_at (bin_indices bins label) (flat X) in
             dict_set label (List.filter (λ x, 0 <? x) _samples) samples
           else samples)
        [] (np_unique (flat bins)).

(** Lines 231-251 *)
Definition build_samples (X : ndarray float) (use_peaks : bool)
    (min_distance : Z) (bins : option (ndarray Z)) : dict Z (list float) :=
  if use_peaks then peak_samples X min_distance bins
  else match bins with
       | Some b => bin_samples X b
       | None => [(0%Z, List.filter (λ x, 0 <? x) (flat X))]
       end.

(** [int(downsample)] *)
Definition py_int (d : pynum) : result Z :=
  match d with
  | PyInt z => Ok z
  | PyFloat f => F.to_int f
  end.

(** Lines 253-255: [downsample_scale]. *)
Definition downsample_scale (d : pynum) : result bool :=
  i ← py_int d;
  Ok (match d with
      | PyInt _ => false
      | PyFloat f => negb (F.eq_int f i)
      end).

(** Line 261: [_downsample]. *)
Definition downsample_count (d : pynum) (scale : bool) (len total : nat)
    : result Z :=
  if scale then
    match d with
    | PyInt z => Ok (Z.of_nat len * z)%Z
    | PyFloat f => F.to_int (F.of_len len * f)
    end
  else
    if (total =? 0)%nat then Raise ZeroDivisionError
    else
      let share := F.of_len len / F.of_len total in
      match d with
      | PyInt z => fz ← F.of_int z; F.to_int (fz * share)
      | PyFloat f => F.to_int (f * share)
      end.

(** [log / log.sum()] for [log = np.log(_samples)] *)
Definition log_weights (samples : list float) : list float :=
  let log := np_log <$> samples in
  (λ l, l / np_sum log) <$> log.

(** Lines 261-264: the samples of one pool handed to [nbn_em]. *)
Definition select_samples (g : rng) (d : pynum) (scale : bool) (total : nat)
    (_samples : list float) : result (list float * rng) :=
  _downsample ← downsample_count d scale (length _samples) total;
  if (_downsample <? Z.of_nat (length _samples))%Z
  then rng_choice g _samples _downsample (log_weights _samples)
  else Ok (_samples, g).

(** One fitted pool: bin label, the samples selected, the estimate. *)
Definition fit : Type := Z * (list float * params).

(** The loop of lines 260-267. *)
Fixpoint fit_pools (g : rng) (d : pynum) (scale : bool) (total : nat)
    (w mu var : vec2) (max_iter : Z) (precision : float)
    (samples : dict Z (list float)) : result (list fit) :=
  match samples with
  | [] => Ok []
  | (label, _samples) :: rest =>
      '(sel, g') ← select_samples g d scale total _samples;
      res ← nbn_em np_log nbinom_pmf digamma np_sum sel w mu var max_iter precision;
      fits ← fit_pools g' d scale total w mu var max_iter precision rest;
      Ok ((label, (sel, res)) :: fits)
  end.

(** Everything [run_em] computes: per pool, selection and estimate. *)
Definition run_em_fits (X : ndarray float) (use_peaks : bool)
    (min_distance : Z) (downsample : pynum) (w mu var : vec2)
    (max_iter : Z) (precision : float) (bins : option (ndarray Z))
    (seed : option Z) (os_entropy : Z) : result (list fit) :=
  let samples := build_samples X use_peaks min_distance bins in
  scale ← downsample_scale downsample;
  let g := make_rng seed os_entropy in
  let total := sum_list (length ∘ snd <$> samples) in
  fit_pools g downsample scale total w mu var max_iter precision samples.

(** [run_em] *)
Definition run_em (X : ndarray float) (use_peaks : bool)
    (min_distance : Z) (downsample : pynum) (w mu var : vec2)
    (max_iter : Z) (precision : float) (bins : option (ndarray Z))
    (seed : option Z) (os_entropy : Z) : result em_results :=
  fits ← run_em_fits X use_peaks min_distance downsample w mu var
                     max_iter precision bins seed os_entropy;
  let results := foldl (λ acc (f : fit), dict_set f.1 f.2.2 acc) [] fits in
  match bins with
  | Some _ => Ok (PerBin results)
  | None => Single <$> dict_get 0%Z results
  end.
End Driver.
End Em.

(* ===================================================================== *)
(** * label.py *)
(* ===================================================================== *)

Module Label.

(** A label image: 0 is background, positive integers are instances.
    ([np.bincount] rejects negative entries, and cv2 / skimage label
    images have none.) *)
Definition labels_t : Type := ndarray nat.

(** [np.bincount(l)]: entry [v] counts the occurrences of [v]. *)
Definition bincount (l : list nat) : list nat :=
  match l with
  | [] => []
  | _ => (λ v, length (List.filter (Nat.eqb v) l)) <$> seq 0 (S (max_list l))
  end.

(** [np.where(a == label)] *)
Definition where_eq (label : nat) (l : list nat) : list nat :=
  where_ (Nat.eqb label) l.

(** [np.unique] *)
Definition np_unique (l : list nat) : list nat :=
  merge_sort le (remove_dups l).

(** [a.max()]: numpy refuses the empty array. *)
Definition np_max (l : list nat) : result nat :=
  match l with
  | [] => Raise ValueError
  | _ => Ok (max_list l)
  end.

(** [saved]: label ↦ the positions it occupied when it was frozen. *)
Definition saved_t : Type := dict nat (list nat).

(** Locations of array objects, and the store they live in. *)
Abbreviation loc := nat.
Abbreviation store := (list labels_t).

Section Expand.
(** [skimage.segmentation.expand_labels(·, distance=1)] *)
Variable expand_labels1 : labels_t → labels_t.

(** Lines 142-147: every label whose area reached [max_area] is
    recorded in [saved] and erased. The labels to visit are fixed by
    the [bincount] taken on entry. *)
Definition freeze (max_area : Z) (expanded : labels_t) (saved : saved_t)
    : labels_t * saved_t :=
  let reached := where_ (λ c, (max_area <=? Z.of_nat c)%Z)
                        (bincount (flat expanded)) in
  foldl (λ (st : labels_t * saved_t) label,
           if (0 <? label)%nat then
             let idx := where_eq label (flat st.1) in
             (with_flat st.1 (assign_at idx 0 (flat st.1)),
              dict_set label idx st.2)
           else st)
        (expanded, saved) reached.

(** [expanded *= mask] *)
Definition apply_mask (mask : option (ndarray bool)) (expanded : labels_t)
    : labels_t :=
  match mask with
  | Some m =>
      with_flat expanded
        (zip_with (λ v (b : bool), if b then v else 0) (flat expanded) (flat m))
  | None => expanded
  end.

(** One iteration of [for _ in range(distance)]. *)
Definition expand_step (max_area : Z) (mask : option (ndarray bool))
    (st : labels_t * saved_t) : labels_t * saved_t :=
  let '(expanded, saved) := freeze max_area st.1 st.2 in
  (apply_mask mask (expand_labels1 expanded), saved).

Fixpoint expand_loop (n : nat) (max_area : Z) (mask : option (ndarray bool))
    (st : labels_t * saved_t) : labels_t * saved_t :=
  match n with
  | O => st
  | S n' => expand_loop n' max_area mask (expand_step max_area mask st)
  end.

(** Lines 155-156: [for label, where in saved.items(): expanded[where] = label] *)
Definition restore (saved : saved_t) (expanded : labels_t) : labels_t :=
  foldl (λ (e : labels_t) (item : nat * list nat),
           with_flat e (assign_at item.2 item.1 (flat e)))
        expanded saved.

(** [_expand_labels], as a function of the contents of its arguments. *)
Definition _expand_labels (labels : labels_t) (distance max_area : Z)
    (mask : option (ndarray bool)) : labels_t :=
  let '(expanded, saved) :=
    expand_loop (Z.to_nat distance) max_area mask (labels, []) in
  restore saved expanded.

(** ** The same function on objects

    Arrays live in a store and are passed by reference; [labels.copy()]
    and [segmentation.expand_labels] allocate, the indexed assignments
    and [*=] write in place. *)

(** A computation on the store; [None] is a dangling reference. [mask]
    is only read, and is passed by its contents. *)
Definition St (A : Type) : Type := store → option (A * store).

Definition st_ret {A} (a : A) : St A := λ h, Some (a, h).
Definition st_bind {A B} (m : St A) (k : A → St B) : St B :=
  λ h, match m h with
       | Some (a, h') => k a h'
       | None => None
       end.
Definition st_alloc (a : labels_t) : St loc := λ h, Some (length h, h ++ [a]).
Definition st_read (l : loc) : St labels_t := λ h, (λ a, (a, h)) <$> h !! l.
Definition st_write (l : loc) (a : labels_t) : St unit :=
  λ h, match h !! l with
       | Some _ => Some (tt, <[l := a]> h)
       | None => None
       end.

Fixpoint expand_loop_obj (n : nat) (max_area : Z) (mask : option (ndarray bool))
    (expanded : loc) (saved : saved_t) : St (loc * saved_t) :=
  match n with
  | O => st_ret (expanded, saved)
  | S n' =>
      (* expanded[where] = 0, in place *)
      st_bind (st_read expanded) (λ a,
      let '(a', saved') := freeze max_area a saved in
      st_bind (st_write expanded a') (λ _,
      (* expanded = segmentation.expand_labels(expanded, distance=1) *)
      st_bind (st_alloc (expand_labels1 a')) (λ expanded',
      (* expanded *= mask, in place *)
      st_bind (st_read expanded') (λ b,
      st_bind (st_write expanded' (apply_mask mask b)) (λ _,
      expand_loop_obj n' max_area mask expanded' saved')))))
  end.

Definition _expand_labels_obj (labels : loc) (distance max_area : Z)
    (mask : option (ndarray bool)) : St loc :=
  st_bind (st_read labels) (λ a,
  st_bind (st_alloc a) (λ expanded,                         (* labels.copy() *)
  st_bind (expand_loop_obj (Z.to_nat distance) max_area mask expanded [])
    (λ '(expanded', saved),
  st_bind (st_read expanded') (λ e,
  st_bind (st_write expanded' (restore saved e)) (λ _,      (* expanded[where] = label *)
  st_ret expanded'))))).
End Expand.

Section Components.
(** [cv2.connectedComponentsWithStats]: the label image
    ([components[1]]) and the area column of the statistics. *)
Variable connected_components_with_stats : ndarray bool → labels_t * list nat.
(** [cv2.connectedComponents(·)[1]] *)
Variable connected_components : ndarray bool → labels_t.
(** [utils.safe_erode(X, k=, min_area=, n_iter=)]; [utils] is not part
    of the sources at hand. *)
Variable safe_erode : ndarray bool → Z → Z → Z → ndarray bool.
Variable expand_labels1 : labels_t → labels_t.

(** Lines 213-218: the labels larger than [max_area], ascending. *)
Definition oversized (areas : list nat) (max_area : Z) : list nat :=
  List.filter (λ label, (0 <? label)%nat)
    (where_ (λ a, (max_area <? Z.of_nat a)%Z) areas).

(** Line 217: [subset += components[1] == label] *)
Definition subset_step (comps : labels_t) (subset : ndarray bool)
    (label : nat) : ndarray bool :=
  with_flat subset
    (zip_with orb (flat subset) (Nat.eqb label <$> flat comps)).

(** [subset]: the union of the masks [components[1] == label]. *)
Definition subset_mask (comps : labels_t) (subset_labels : list nat)
    : ndarray bool :=
  foldl (subset_step comps)
        (with_flat comps (replicate (length (flat comps)) false))
        subset_labels.

(** Line 229: the identifier a label of [expanded] is given. *)
Definition new_label (subset_labels : list nat) (max_label label : nat) : nat :=
  if (label <=? length subset_labels)%nat
  then default 0 (subset_labels !! (label - 1))
  else max_label + label - length subset_labels.

(** Line 228, for one label of [np.unique(expanded)]. *)
Definition relabel_step (subset_labels : list nat) (max_label : nat)
    (expanded fixed : labels_t) (label : nat) : labels_t :=
  if (0 <? label)%nat then
    with_flat fixed
      (assign_at (where_eq label (flat expanded))
                 (new_label subset_labels max_label label)
                 (flat fixed))
  else fixed.

(** Lines 225-230 *)
Definition fix_labels (subset_labels : list nat) (max_label : nat)
    (expanded : labels_t) : labels_t :=
  foldl (relabel_step subset_labels max_label expanded)
        expanded (np_unique (flat expanded)).

(** Lines 221-223: [expanded], from [subset]. *)
Definition split_region (subset : ndarray bool)
    (k min_area n_iter distance max_area : Z) : labels_t :=
  let eroded := safe_erode subset k min_area n_iter in
  let labels := connected_components eroded in
  _expand_labels expand_labels1 labels distance max_area (Some subset).

(** [_label_connected_components] *)
Definition _label_connected_components (X : ndarray bool)
    (k min_area n_iter distance max_area : Z) : result labels_t :=
  let '(comps, areas) := connected_components_with_stats X in
  let subset_labels := oversized areas max_area in
  let subset := subset_mask comps subset_labels in
  max_label ← np_max (flat comps);
  let expanded := split_region subset k min_area n_iter distance max_area in
  let fixed := fix_labels subset_labels max_label expanded in
  let idx := where_ negb (flat subset) in
  Ok (with_flat fixed (assign_from idx (flat comps) (flat fixed))).
End Components.
End Label.

(** Unfolds the next operations on the store. *)
Ltac st_run :=
  unfold Label.st_bind, Label.st_read, Label.st_write, Label.st_alloc,
    Label.st_ret in *.

(* ===================================================================== *)
(** * Stand-ins for the image libraries *)
(* ===================================================================== *)

(** Executable versions of the cv2 / skimage primitives, written from
    their documentation. The general results below hold for any functions
    in their place; these are used to run the code on explicit images. *)
Module Lib.

(** ** Rows and neighbours *)

(** The rows of a row-major buffer. *)
Fixpoint to_rows {A} (nrows ncols : nat) (l : list A) : list (list A) :=
  match nrows with
  | O => []
  | S n => take ncols l :: to_rows n ncols (drop ncols l)
  end.

Fixpoint map3 {A B C D} (f : A → B → C → D)
    (la : list A) (lb : list B) (lc : list C) : list D :=
  match la, lb, lc with
  | a :: la', b :: lb', c :: lc' => f a b c :: map3 f la' lb' lc'
  | _, _, _ => []
  end.

(** For each element of a row (or each row of an image), the element
    before it, itself and the one after it; [d] stands for the missing
    neighbour at either end. *)
Definition with_neighbours {A B} (d : A) (f : A → A → A → B) (l : list A) : list B :=
  map3 f (d :: l) l (tail l ++ [d]).

(** A pixel-wise operation on an image seen as rows. *)
Definition on_rows {A B} (f : list (list A) → list (list B)) (a : ndarray A)
    : ndarray B :=
  with_flat a (concat (f (to_rows (rows a) (cols a) (flat a)))).

(** ** [skimage.segmentation.expand_labels(a, distance=1)]

    A background pixel takes the label of the nearest labelled pixel
    within distance 1, that is of a 4-neighbour; labelled pixels are
    kept. Where several neighbours qualify the first of up, left, right,
    down is taken. *)
Definition first_label (a b : nat) : nat := if (0 <? a)%nat then a else b.

Definition expand_row (up cur down : list nat) : list nat :=
  let right_or_down := zip_with first_label (tail cur ++ [0]) down in
  let left_or := zip_with first_label (0 :: cur) right_or_down in
  zip_with first_label cur (zip_with first_label up left_or).

Definition expand_labels1 (a : Label.labels_t) : Label.labels_t :=
  on_rows (with_neighbours (replicate (cols a) 0) expand_row) a.

(** ** [cv2.erode]

    A [3 × 3] rectangular kernel anchored at its centre; positions
    outside the image do not constrain a pixel. A [k × k] kernel, [k]
    odd, is [k / 2] such erosions in a row. *)
Definition erode3 (m : ndarray bool) : ndarray bool :=
  let and3 (a b c : bool) := a && b && c in
  on_rows (λ rws,
             with_neighbours (replicate (cols m) true) (map3 and3)
                             (with_neighbours true and3 <$> rws))
          m.

Definition erode (k : nat) (m : ndarray bool) : ndarray bool :=
  Nat.iter (k / 2) erode3 m.

(** ** Connected components, 8-connectivity

    Foreground pixel [i] starts with the provisional label [i + 1]; each
    pixel then repeatedly takes the least label among itself and its
    foreground neighbours, in raster sweeps forth and back, until nothing
    changes. Label 0 is the background. *)
Definition least (a b : N) : N :=
  if (a =? 0)%N then b else if (b =? 0)%N then a else N.min a b.

(** One row of a forward sweep: [prev] is the row above, already swept,
    [next] the row below, not yet swept; within the row the left
    neighbour has been swept and the right one has not. *)
Fixpoint sweep_cells (left : N) (around cur : list N) : list N :=
  match around, cur with
  | m :: around', c :: cur' =>
      let v := if (c =? 0)%N then 0%N else least c (least m left) in
      v :: sweep_cells v around' cur'
  | _, _ => []
  end.

Definition sweep_row (prev cur next : list N) : list N :=
  let least3 (a b c : N) := least a (least b c) in
  let above := with_neighbours 0%N least3 prev in
  let below := with_neighbours 0%N least3 next in
  let right := tail cur ++ [0%N] in
  sweep_cells 0%N (zip_with least above (zip_with least below right)) cur.

Fixpoint sweep_down (prev : list N) (rws : list (list N)) : list (list N) :=
  match rws with
  | [] => []
  | cur :: rest =>
      let new := sweep_row prev cur (default (const 0%N <$> cur) (head rest)) in
      new :: sweep_down new rest
  end.

(** The image turned by 180 degrees. *)
Definition turn (rws : list (list N)) : list (list N) := reverse (reverse <$> rws).

(** A forward sweep; above the first row there is only background. *)
Definition sweep_forward (rws : list (list N)) : list (list N) :=
  sweep_down (const 0%N <$> default [] (head rws)) rws.

Definition cc_sweep (rws : list (list N)) : list (list N) :=
  turn (sweep_forward (turn (sweep_forward rws))).

Fixpoint cc_fix (fuel : nat) (rws : list (list N)) : list (list N) :=
  match fuel with
  | O => rws
  | S fuel' =>
      let rws' := cc_sweep rws in
      if decide (rws' = rws) then rws else cc_fix fuel' rws'
  end.

(** Provisional labels, counting positions from [i]. *)
Fixpoint cc_init (i : N) (l : list bool) : list N :=
  match l with
  | [] => []
  | b :: l' => (if b then N.succ i else 0%N) :: cc_init (N.succ i) l'
  end.

(** The labels still equal to their position + 1: one per component, in
    the raster order of the components' first pixels. *)
Fixpoint cc_firsts (i : N) (l : list N) : list N :=
  match l with
  | [] => []
  | v :: l' =>
      if (v =? N.succ i)%N then v :: cc_firsts (N.succ i) l'
      else cc_firsts (N.succ i) l'
  end.

Fixpoint index_of (x : N) (l : list N) : nat :=
  match l with
  | [] => 0
  | y :: l' => if (x =? y)%N then 0 else S (index_of x l')
  end.

(** [cv2.connectedComponents(m)[1]]: components are numbered 1, 2, ...
    in the raster order of their first pixel. *)
Definition connected_components (m : ndarray bool) : Label.labels_t :=
  let swept :=
    concat (cc_fix (length (flat m))
                   (to_rows (rows m) (cols m) (cc_init 0 (flat m)))) in
  let firsts := cc_firsts 0 swept in
  with_flat m ((λ v, if (v =? 0)%N then 0 else S (index_of v firsts)) <$> swept).

(** [cv2.connectedComponentsWithStats]: labels and the area column,
    one entry per label, background included. *)
Definition connected_components_with_stats (m : ndarray bool)
    : Label.labels_t * list nat :=
  let L := connected_components m in
  (L, (λ v, length (List.filter (Nat.eqb v) (flat L)))
        <$> seq 0 (S (max_list (flat L)))).

(** Modelled from the spec: [utils.safe_erode], whose source is not at
    hand. The connected-component splitter erodes the oversized region
    with a kernel of size [k]; [n_iter] is the number of erosions, and
    [n_iter = -1] means "erode until every fragment's area is under
    [min_area]"; fragments already smaller than [min_area] are not
    eroded. *)
Fixpoint safe_erode_loop (fuel : nat) (k min_area n_iter i : Z)
    (X : ndarray bool) : ndarray bool :=
  match fuel with
  | O => X
  | S fuel' =>
      let '(L, areas) := connected_components_with_stats X in
      (* the fragments that are not yet under [min_area] *)
      let big_labels :=
        List.filter (λ label, (0 <? label)%nat)
                    (where_ (λ a, (min_area <=? Z.of_nat a)%Z) areas) in
      let is_big (label : nat) := existsb (Nat.eqb label) big_labels in
      match big_labels with
      | [] => X
      | _ =>
          if (n_iter =? i)%Z then X
          else
            let big := with_flat X (is_big <$> flat L) in
            let small := (λ v, (0 <? v)%nat && negb (is_big v)) <$> flat L in
            safe_erode_loop fuel' k min_area n_iter (i + 1)
              (with_flat X (zip_with orb small (flat (erode (Z.to_nat k) big))))
      end
  end.

Definition safe_erode (X : ndarray bool) (k min_area n_iter : Z) : ndarray bool :=
  safe_erode_loop (S (length (flat X))) k min_area n_iter 0 X.

(** The splitter and the expander on these primitives. *)
Definition expand_labels := Label._expand_labels expand_labels1.
Definition label_connected_components :=
  Label._label_connected_components
    connected_components_with_stats connected_components safe_erode expand_labels1.

End Lib.


(* ===================================================================== *)
(** * Inputs used in the concrete runs *)
(* ===================================================================== *)

Module Inputs.

(** Kernels that keep the estimator computable in the concrete runs. None
    of the results stated for all kernels depends on them. *)
Definition flat_pmf (n p x : float) : float := 0.5%float.
Definition ident (x : float) : float := x.
Definition left_sum (l : list float) : float := foldl PrimFloat.add 0%float l.
Definition no_peaks (X : ndarray float) (d : Z) (bins : option (ndarray Z))
  : list nat := [].
(** A generator that is its seed, and a [choice] that takes the first
    [size] samples and bumps the state. *)
Definition first_k (g : Z) (a : list float) (size : Z) (p : list float)
  : result (list float * Z) := Ok (take (Z.to_nat size) a, (g + 1)%Z).

(** Two pixels, the first in no bin, the second in bin 1. *)
Definition X2 : ndarray float := NdArray 1 2 [3%float; 4%float].
Definition bins2 : ndarray Z := NdArray 1 2 [0%Z; 1%Z].
Definition fit2 : Em.params :=
  ((0.5, 0.5), (2, 3), (0.5, 0.5))%float.

(** A row of eight pixels: label 1 has area 3, labels 2 and 3 area 1. *)
Definition row8 : Label.labels_t := NdArray 1 8 [1; 1; 1; 2; 0; 0; 0; 3].

(** A one-pixel-wide horizontal line of 1000 foreground pixels with a
    one-pixel background margin: a single component of area 1000. *)
Definition line : ndarray bool :=
  NdArray 3 1002
    (replicate 1003 false ++ replicate 1000 true ++ replicate 1003 false).

(** Two components in a 2 × 6 image: one of area 5, one of area 2. *)
Definition two_blobs : ndarray bool :=
  NdArray 2 6 [true; true; true; false; false; true;
               true; true; false; false; false; true].
End Inputs.

(* ===================================================================== *)
(** * The specification's wording *)
(* ===================================================================== *)

Module Spec.

(** "interpretable as a fraction (if not integral) or an absolute cap (if
    integral)": the budget is integral when it is an [int], or a float
    equal to its integer part. *)
Definition integral (d : Em.pynum) : Prop :=
  match d with
  | Em.PyInt _ => True
  | Em.PyFloat f => ∃ z, F.to_int f = Ok z ∧ F.eq_int f z = true
  end.

(** The truncated value of a float, when it has one. *)
Definition truncates_to (f : float) (t : Z) : Prop := F.to_int f = Ok t.

(** "a fraction of each pool's size" *)
Definition fraction_of_pool (d : Em.pynum) (len : nat) (t : Z) : Prop :=
  ∃ f, d = Em.PyFloat f ∧ truncates_to (F.of_len len * f)%float t.

(** "scaled by each pool's share of the total" *)
Definition share_of_cap (d : Em.pynum) (len total : nat) (t : Z) : Prop :=
  total ≠ 0%nat ∧
  ∃ cap, match d with
         | Em.PyInt z => F.of_int z = Ok cap
         | Em.PyFloat f => cap = f
         end
         ∧ truncates_to (cap * (F.of_len len / F.of_len total))%float t.

(** A mask with one foreground component of the given area, as
    [cv2.connectedComponentsWithStats] reports it: the label image is 1
    on the foreground and 0 elsewhere, and the area column says so. *)
Definition single_component (X : ndarray bool) (area : nat)
    (r : Label.labels_t * list nat) : Prop :=
  flat r.1 = (λ b : bool, if b then 1 else 0) <$> flat X
  ∧ (∃ background, r.2 = [background; area])
  ∧ length (where_ id (flat X)) = area.

(** The array [expanded] of [_label_connected_components] for the mask
    [X]: the fragments of the oversized region, before renaming. *)
Definition expanded_of
    (connected_components_with_stats : ndarray bool → Label.labels_t * list nat)
    (connected_components : ndarray bool → Label.labels_t)
    (safe_erode : ndarray bool → Z → Z → Z → ndarray bool)
    (expand_labels1 : Label.labels_t → Label.labels_t)
    (X : ndarray bool) (k min_area n_iter distance max_area : Z)
    : Label.labels_t :=
  let r := connected_components_with_stats X in
  Label.split_region connected_components safe_erode expand_labels1
    (Label.subset_mask r.1 (Label.oversized r.2 max_area))
    k min_area n_iter distance max_area.

(** The positions carrying a positive label. *)
Definition labelled (a : Label.labels_t) : list nat :=
  where_ (Nat.ltb 0) (flat a).

(** The distinct positive labels. *)
Definition positive_labels (a : Label.labels_t) : list nat :=
  List.filter (Nat.ltb 0) (Label.np_unique (flat a)).

(** The positions carrying label [v]. *)
Definition pixels_of (v : nat) (a : Label.labels_t) : list nat :=
  Label.where_eq v (flat a).
End Spec.

(* ===================================================================== *)
(** * Results: conversions *)
(* ===================================================================== *)

(** Sanity checks of the conversions against CPython. *)
Example conversions_agree_with_python :
  F.to_int 1e6%float = Ok 1000000%Z ∧ F.to_int (-2.75)%float = Ok (-2)%Z
  ∧ F.eq_int 1e6%float 1000000 = true ∧ F.eq_int 0.5%float 0 = false
  ∧ F.of_int 3 = Ok 3%float
  ∧ F.of_int (2^53 + 1) = Ok 9007199254740992%float
  ∧ F.of_int (2^53 + 3) = Ok 9007199254740996%float
  ∧ F.of_int (2^1024) = Raise OverflowError.
Proof. vm_compute. repeat split. Qed.

(* ===================================================================== *)
(** * Results: the mixture estimator *)
(* ===================================================================== *)

Section EstimatorFacts.
Variable np_log : float → float.
Variable nbinom_pmf : float → float → float → float.
Variable digamma : float → float.
Variable np_sum : list float → float.

Abbreviation nbn_em := (Em.nbn_em np_log nbinom_pmf digamma np_sum).
Abbreviation em_update := (Em.em_update np_log nbinom_pmf digamma np_sum).
Abbreviation em_loop := (Em.em_loop np_log nbinom_pmf digamma np_sum).
Abbreviation em_init := (Em.em_init np_log).
Abbreviation to_wrp := (Em.to_wrp np_log).

(** Once the body has run, [isnan] is bound. *)
Lemma em_loop_binds_isnan n X precision st :
  (0 < n)%nat ∨ Em.ls_isnan st ≠ None →
  Em.ls_isnan (em_loop n X precision st) ≠ None.
Proof.
  revert st. induction n as [|n IH]; intros st Hn; simpl.
  - destruct Hn as [Hn|Hn]; [lia|done].
  - destruct (_ || _); simpl; [done|]. apply IH. by right.
Qed.

(** The loop invariant behind the failure policy: [prev] is the entry
    snapshot or free of NaN, and a run that ends with [isnan = False]
    ends on a NaN-free [cur]. *)
Lemma em_loop_snapshots n X precision st p0 :
  (Em.ls_prev st = p0 ∨ Em.has_nan (Em.ls_prev st) = false) →
  (Em.ls_isnan st = Some false → Em.has_nan (Em.ls_cur st) = false) →
  let st' := em_loop n X precision st in
  (Em.ls_prev st' = p0 ∨ Em.has_nan (Em.ls_prev st') = false)
  ∧ (Em.ls_isnan st' = Some false → Em.has_nan (Em.ls_cur st') = false).
Proof.
  revert st. induction n as [|n IH]; intros st Hprev Hcur; simpl; [done|].
  destruct (Em.has_nan (em_update X (Em.ls_cur st))) eqn:Hnan.
  - rewrite orb_true_r. simpl. split; [done|]. by intros [=].
  - rewrite orb_false_r.
    destruct (Em.converged _ _ _); simpl.
    + split; [done|]. by intros _.
    + apply IH; simpl; [by right|done].
Qed.

(** With at least one iteration [nbn_em] returns, and what it returns
    is built from the entry snapshot or from a NaN-free one. *)
Lemma nbn_em_returns_valid_snapshot X w mu var max_iter precision :
  (0 < max_iter)%Z →
  ∃ s, nbn_em X w mu var max_iter precision = Ok (to_wrp s)
       ∧ (s = Em.ls_cur (em_init w mu var) ∨ Em.has_nan s = false).
Proof.
  intros Hpos. unfold Em.nbn_em.
  pose proof (em_loop_binds_isnan (Z.to_nat max_iter) X precision
                (em_init w mu var)) as Hb.
  pose proof (em_loop_snapshots (Z.to_nat max_iter) X precision
                (em_init w mu var) (Em.ls_cur (em_init w mu var))) as Hs.
  simpl in Hs. destruct Hs as [Hprev Hcur]; [by left|done|].
  set (st' := em_loop _ _ _ _) in *.
  unfold Em.em_select.
  destruct (Em.ls_isnan st') as [[|]|] eqn:E.
  - eexists; split; [reflexivity|]. destruct Hprev as [->|?]; [by left|by right].
  - eexists; split; [reflexivity|]. right. by apply Hcur.
  - exfalso. apply Hb; [left; lia|done].
Qed.

(** NaN in the very first iteration: the pre-loop values come back. *)
Lemma nbn_em_first_iteration_nan X w mu var max_iter precision :
  (0 < max_iter)%Z →
  Em.has_nan (em_update X (Em.ls_cur (em_init w mu var))) = true →
  nbn_em X w mu var max_iter precision = Ok (to_wrp (Em.ls_cur (em_init w mu var))).
Proof.
  intros Hpos Hnan. unfold Em.nbn_em.
  destruct (Z.to_nat max_iter) as [|n] eqn:E; [lia|].
  simpl. simpl in Hnan. rewrite Hnan, orb_true_r. reflexivity.
Qed.

(** C1 (code): [nbn_em] called with [max_iter = 0] never enters the loop,
    so [isnan] is unbound when the return expression reads it: the call
    raises [UnboundLocalError], whatever the samples and initial values
    are, contradicting "never raises for any max_iter >= 0". *)
Theorem nbn_em_zero_iterations_raises X w mu var precision :
  nbn_em X w mu var 0 precision = Raise UnboundLocalError.
Proof. reflexivity. Qed.

End EstimatorFacts.

(* ===================================================================== *)
(** * Results: the E-step *)
(* ===================================================================== *)

Section EStepFacts.
Context {T : Type} `{Arith T}.

(** A degenerate pixel below twice the background mean: [tau[0]] is set
    to 1. *)
Lemma forced_background (w0 w1 bp cp x mu0 : T) :
  a_leb (a_add (a_mul w0 bp) (a_mul w1 cp)) a_eps = true →
  a_ltb x (a_mul mu0 a_two) = true →
  (Em.forced w0 w1 bp cp x mu0).1 = a_one.
Proof. intros Hs Hx. unfold Em.forced. simpl. by rewrite Hs, Hx. Qed.

(** A degenerate pixel at or above twice the background mean: [tau[1]]
    is set to 1 and [tau[0]] keeps its value. *)
Lemma forced_cell (w0 w1 bp cp x mu0 : T) :
  a_leb (a_add (a_mul w0 bp) (a_mul w1 cp)) a_eps = true →
  a_ltb x (a_mul mu0 a_two) = false →
  a_leb (a_mul mu0 a_two) x = true →
  Em.forced w0 w1 bp cp x mu0 = (a_mul w0 bp, a_one).
Proof.
  intros Hs Hx Hx'. unfold Em.forced.
  rewrite Hs, Hx. simpl. by rewrite Hs, Hx'.
Qed.
End EStepFacts.

(** In exact arithmetic the forced assignment keeps the per-pixel sum away
    from zero, and the normalised responsibilities add up to 1. *)
Lemma normalized_sum_exact (w0 w1 bp cp x mu0 : Q) :
  (0 <= w0 * bp)%Q → (0 <= w1 * cp)%Q →
  let t := Em.e_step_pixel w0 w1 bp cp x mu0 in
  (t.1 + t.2 == 1)%Q.
Proof.
  intros H0 H1. unfold Em.e_step_pixel, Em.normalize, Em.forced. simpl.
  set (t0 := (w0 * bp)%Q) in *. set (t1 := (w1 * cp)%Q) in *.
  assert (Hsum : ∀ a b : Q, ¬ (a + b == 0)%Q → (a / (a + b) + b / (a + b) == 1)%Q).
  { intros a b Hab. field. exact Hab. }
  assert (Heps : (0 < 1 # 1000000000)%Q) by reflexivity.
  destruct (Qle_bool (t0 + t1) (1 # 1000000000)) eqn:Hs; simpl.
  - destruct (Qle_bool (mu0 * 2) x) eqn:Hx; simpl.
    + rewrite Hs. simpl. apply Hsum. intros E.
      assert (0 < t0 + 1)%Q; [|by rewrite E in *].
      apply Qlt_le_trans with (0 + 1)%Q; [reflexivity|].
      apply Qplus_le_l. exact H0.
    + rewrite andb_false_r. apply Hsum. intros E.
      assert (0 < 1 + t1)%Q; [|by rewrite E in *].
      apply Qlt_le_trans with (1 + 0)%Q; [reflexivity|].
      apply Qplus_le_r. exact H1.
  - rewrite Hs. simpl. apply Hsum. intros E.
    assert (Qle_bool (t0 + t1) (1 # 1000000000) = true); [|congruence].
    apply Qle_bool_iff. rewrite E. by apply Qlt_le_weak.
Qed.




(* ===================================================================== *)
(** * Results: the posterior scorer *)
(* ===================================================================== *)

Section ScorerFacts.
Variable nbinom_pmf : float → float → float → float.

(** C3 (code): a pixel whose bin has no entry in the per-bin mapping
    (bin 0, which [run_em] ignores) keeps [tau0 = tau1 = 0], and
    [confidence] returns [0/0 = NaN] there, outside [0, 1], whatever the
    pmf is: the result for [X = [[3, 4]]], [bins = [[0, 1]]] and a
    mapping with the single key 1 is not element-wise in [0, 1]. *)
Theorem confidence_nan_outside_bins :
  (λ out, forallb F.in_unit (flat out))
    <$> Em.confidence nbinom_pmf Inputs.X2
          (Em.PerBin [(1%Z, Inputs.fit2)]) (Some Inputs.bins2)
  = Ok false.
Proof. vm_compute. reflexivity. Qed.

(** C4: with a per-bin mapping and [bins=None], [conditionals] raises
    [PreprocessingError] and returns nothing; [confidence], which starts
    by calling it, raises the same error. *)
Theorem per_bin_without_bins_raises X d :
  Em.conditionals nbinom_pmf X (Em.PerBin d) None = Raise PreprocessingError
  ∧ Em.confidence nbinom_pmf X (Em.PerBin d) None = Raise PreprocessingError.
Proof. split; reflexivity. Qed.
End ScorerFacts.

(* ===================================================================== *)
(** * Results: the sampler / binning driver *)
(* ===================================================================== *)

Section DriverFacts.
Variable np_log : float → float.
Variable nbinom_pmf : float → float → float → float.
Variable digamma : float → float.
Variable np_sum : list float → float.
Variable peak_local_max : ndarray float → Z → option (ndarray Z) → list nat.
Variable connected_components : ndarray bool → ndarray nat.
Variable rng : Type.
Variable default_rng : Z → rng.
Variable rng_choice : rng → list float → Z → list float → result (list float * rng).

Abbreviation nbn_em' := (Em.nbn_em np_log nbinom_pmf digamma np_sum).
Abbreviation select_samples := (Em.select_samples np_log np_sum rng rng_choice).
Abbreviation fit_pools :=
  (Em.fit_pools np_log nbinom_pmf digamma np_sum rng rng_choice).
Abbreviation run_em_fits :=
  (Em.run_em_fits np_log nbinom_pmf digamma np_sum peak_local_max
                  connected_components rng default_rng rng_choice).
Abbreviation run_em :=
  (Em.run_em np_log nbinom_pmf digamma np_sum peak_local_max
             connected_components rng default_rng rng_choice).

(** [downsample_scale] is false exactly for an integral budget. *)
Lemma downsample_scale_integral d scale :
  Em.downsample_scale d = Ok scale → (scale = false ↔ Spec.integral d).
Proof.
  destruct d as [z|f]; simpl.
  - intros [= <-]. done.
  - unfold Em.downsample_scale. simpl.
    destruct (F.to_int f) as [i|e] eqn:Hi; simpl; [|done].
    intros [= <-]. split.
    + intros Hneg. exists i. split; [done|]. by destruct (F.eq_int f i).
    + intros (z & Hz & Heq). assert (z = i) as -> by congruence.
      by rewrite Heq.
Qed.

(** Every pool of [run_em] goes through [select_samples], and what it
    yields is what the estimator is given. *)
Lemma fit_pools_selections g d scale total w mu var max_iter precision samples fits :
  fit_pools g d scale total w mu var max_iter precision samples = Ok fits →
  Forall2 (λ (pool : Z * list float) (f : Em.fit),
             f.1 = pool.1
             ∧ ∃ g0 g1, select_samples g0 d scale total pool.2 = Ok (f.2.1, g1))
          samples fits.
Proof.
  revert g fits. induction samples as [|[label pool] rest IH]; intros g fits; simpl.
  - intros [= <-]. constructor.
  - destruct (select_samples g d scale total pool) as [[sel g']|e] eqn:Hsel;
      simpl; [|done].
    destruct (nbn_em' sel w mu var max_iter precision) as [res|e]; simpl; [|done].
    destruct (fit_pools g' d scale total w mu var max_iter precision rest)
      as [fits'|e] eqn:Hrest; simpl; [|done].
    intros [= <-]. constructor; [|by apply (IH g')].
    split; [done|]. by exists g, g'.
Qed.


(** Each estimate of [run_em] is [nbn_em] of the pool's selection and
    of the arguments: nothing else reaches the estimator. *)
Lemma fit_pools_estimates g d scale total w mu var max_iter precision samples fits :
  fit_pools g d scale total w mu var max_iter precision samples = Ok fits →
  Forall (λ f : Em.fit, nbn_em' f.2.1 w mu var max_iter precision = Ok f.2.2) fits.
Proof.
  revert g fits. induction samples as [|[label pool] rest IH]; intros g fits; simpl.
  - intros [= <-]. constructor.
  - destruct (select_samples g d scale total pool) as [[sel g']|e]; simpl; [|done].
    destruct (nbn_em' sel w mu var max_iter precision) as [res|e] eqn:Hres;
      simpl; [|done].
    destruct (fit_pools g' d scale total w mu var max_iter precision rest)
      as [fits'|e] eqn:Hrest; simpl; [|done].
    intros [= <-]. constructor; [done|]. by apply (IH g').
Qed.

End DriverFacts.



(* ===================================================================== *)
(** * Facts about indexed assignment *)
(* ===================================================================== *)

Section ArrayFacts.
Context {A : Type}.
Implicit Types (l src : list A) (ps : list nat) (i : nat).

Lemma where_from_elem (P : A → bool) l i j :
  j ∈ where_from P i l ↔ ∃ x, i ≤ j ∧ l !! (j - i) = Some x ∧ P x = true.
Proof.
  revert i. induction l as [|y l IH]; intros i; simpl.
  - rewrite elem_of_nil. split; [done|]. by intros (x & _ & ? & _).
  - assert (Hrest : j ∈ where_from P (S i) l
                    ↔ ∃ x, i < j ∧ (y :: l) !! (j - i) = Some x ∧ P x = true).
    { rewrite IH. split; intros (x & Hij & Hx & HP); exists x;
        (split; [lia|]); (split; [|done]).
      - replace (j - i) with (S (j - S i)) by lia. done.
      - replace (j - i) with (S (j - S i)) in Hx by lia. done. }
    destruct (P y) eqn:Hy.
    + rewrite elem_of_cons, Hrest. split.
      * intros [->|(x & Hij & Hx & HP)].
        -- exists y. rewrite Nat.sub_diag. done.
        -- exists x. split; [lia|done].
      * intros (x & Hij & Hx & HP).
        destruct (decide (j = i)) as [->|Hne]; [by left|].
        right. exists x. split; [lia|done].
    + rewrite Hrest. split.
      * intros (x & Hij & Hx & HP). exists x. split; [lia|done].
      * intros (x & Hij & Hx & HP).
        destruct (decide (j = i)) as [->|Hne].
        -- rewrite Nat.sub_diag in Hx. simpl in Hx. congruence.
        -- exists x. split; [lia|done].
Qed.

Lemma where_elem (P : A → bool) l i :
  i ∈ where_ P l ↔ ∃ x, l !! i = Some x ∧ P x = true.
Proof.
  unfold where_. rewrite where_from_elem. rewrite Nat.sub_0_r.
  split; [by intros (x & _ & ?); exists x|].
  intros (x & ?). exists x. split; [lia|done].
Qed.

Lemma assign_at_length ps (v : A) l : length (assign_at ps v l) = length l.
Proof.
  unfold assign_at. revert l. induction ps as [|p ps IH]; intros l; simpl; [done|].
  by rewrite IH, length_insert.
Qed.

Lemma assign_at_lookup ps (v : A) l i :
  assign_at ps v l !! i
  = if decide (i ∈ ps) then (λ _, v) <$> l !! i else l !! i.
Proof.
  unfold assign_at. revert l. induction ps as [|p ps IH]; intros l; simpl.
  - done.
  - rewrite IH, list_lookup_insert.
    destruct (decide (i ∈ p :: ps)) as [Hin'|Hin'];
      destruct (decide (i ∈ ps)) as [Hin|Hin];
      destruct (decide (p = i ∧ p < length l)) as [[-> Hlt]|Hn];
      try done.
    + apply lookup_lt_is_Some in Hlt as [x ->]. done.
    + apply lookup_lt_is_Some in Hlt as [x ->]. done.
    + apply elem_of_cons in Hin' as [->|?]; [|done].
      destruct (l !! p) as [x|] eqn:Hp; [|done].
      exfalso. apply Hn. split; [done|]. by eapply lookup_lt_Some.
    + exfalso. apply Hin'. by apply list_elem_of_further.
    + exfalso. apply Hin'. by apply list_elem_of_further.
    + exfalso. apply Hin'. apply list_elem_of_here.
Qed.

Lemma assign_from_length ps src l : length (assign_from ps src l) = length l.
Proof.
  unfold assign_from. revert l. induction ps as [|p ps IH]; intros l; simpl; [done|].
  rewrite IH. destruct (src !! p); [apply length_insert|done].
Qed.

Lemma assign_from_lookup ps src l i :
  assign_from ps src l !! i
  = if decide (i ∈ ps)
    then match src !! i with
         | Some v => (λ _, v) <$> l !! i
         | None => l !! i
         end
    else l !! i.
Proof.
  unfold assign_from. revert l. induction ps as [|p ps IH]; intros l; simpl.
  - done.
  - rewrite IH. clear IH.
    assert (Hstep : (match src !! p with
                     | Some v => <[p := v]> l
                     | None => l
                     end) !! i
                    = if decide (p = i)
                      then match src !! i with
                           | Some v => (λ _, v) <$> l !! i
                           | None => l !! i
                           end
                      else l !! i).
    { destruct (decide (p = i)) as [->|Hne].
      - destruct (src !! i) as [v|]; [|done].
        rewrite list_lookup_insert.
        destruct (decide (i = i ∧ i < length l)) as [[_ Hlt]|Hn].
        + apply lookup_lt_is_Some in Hlt as [x ->]. done.
        + destruct (l !! i) as [x|] eqn:Hi; [|done].
          exfalso. apply Hn. split; [done|]. by eapply lookup_lt_Some.
      - destruct (src !! p); [|done]. by rewrite list_lookup_insert_ne. }
    rewrite Hstep. clear Hstep.
    destruct (decide (i ∈ p :: ps)) as [Hin'|Hin'];
      destruct (decide (i ∈ ps)) as [Hin|Hin];
      destruct (decide (p = i)) as [->|Hne];
      try done.
    + by destruct (src !! i), (l !! i).
    + apply elem_of_cons in Hin' as [->|?]; done.
    + exfalso. apply Hin'. by apply list_elem_of_further.
    + exfalso. apply Hin'. by apply list_elem_of_further.
    + exfalso. apply Hin'. apply list_elem_of_here.
Qed.
End ArrayFacts.

(* ===================================================================== *)
(** * Results: label expansion *)
(* ===================================================================== *)

(** C5 (code): on the row [[1, 1, 1, 2, 0, 0, 0, 3]] with [distance = 2]
    and [max_area = 3], label 1 (area 3) is frozen in the first iteration
    and its pixels are vacated; label 2 grows into one of them, reaches
    area 3 and is frozen in the second iteration, with that pixel among
    its saved positions. Restoring in insertion order writes label 2 over
    label 1: the result is [[1, 1, 2, 2, 2, 3, 3, 3]]. The frozen label 1
    keeps two of its three pixels, and label 2 ends on a pixel label 1 had
    in the input. *)
Theorem expand_labels_overwrites_frozen_label :
  let out := Lib.expand_labels Inputs.row8 2 3 None in
  out = NdArray 1 8 [1; 1; 2; 2; 2; 3; 3; 3]
  ∧ Spec.pixels_of 1 Inputs.row8 = [0; 1; 2]
  ∧ Spec.pixels_of 1 out = [0; 1]
  ∧ Spec.pixels_of 2 out = [2; 3; 4].
Proof. vm_compute. repeat split. Qed.

Section ExpandFacts.
Variable expand_labels1 : Label.labels_t → Label.labels_t.

Abbreviation expand_loop := (Label.expand_loop expand_labels1).
Abbreviation expand_loop_obj := (Label.expand_loop_obj expand_labels1).
Abbreviation _expand_labels := (Label._expand_labels expand_labels1).
Abbreviation _expand_labels_obj := (Label._expand_labels_obj expand_labels1).

Lemma expand_labels_unfold labels distance max_area mask :
  _expand_labels labels distance max_area mask
  = Label.restore
      (expand_loop (Z.to_nat distance) max_area mask (labels, [])).2
      (expand_loop (Z.to_nat distance) max_area mask (labels, [])).1.
Proof. unfold Label._expand_labels. by destruct (expand_loop _ _ _ _). Qed.

(** The loop on objects computes the loop on contents, writes only to
    arrays allocated after [h0] was taken, and leaves [expanded] among
    those. *)
Lemma expand_loop_obj_frame n max_area mask :
  ∀ (h0 h : Label.store) (e : Label.loc) saved a,
    h !! e = Some a →
    length h0 ≤ e →
    (∀ j, j < length h0 → h !! j = h0 !! j) →
    ∃ e' h',
      expand_loop_obj n max_area mask e saved h
      = Some ((e', (expand_loop n max_area mask (a, saved)).2), h')
      ∧ h' !! e' = Some (expand_loop n max_area mask (a, saved)).1
      ∧ length h0 ≤ e'
      ∧ (∀ j, j < length h0 → h' !! j = h0 !! j).
Proof.
  induction n as [|n IH]; intros h0 h e saved a He Hfresh Hframe; simpl.
  - exists e, h. done.
  - unfold Label.expand_step. simpl.
    destruct (Label.freeze max_area a saved) as [a' saved'] eqn:Hfreeze.
    set (b := Label.apply_mask mask (expand_labels1 a')).
    set (h1 := <[e := a']> h).
    assert (Hlen1 : length h1 = length h) by apply length_insert.
    assert (He_lt : e < length h) by (by eapply lookup_lt_Some).
    destruct (IH h0 (<[length h1 := b]> (h1 ++ [expand_labels1 a']))
                (length h1) saved' b) as (e' & h' & Hrun & Hout & Hfresh' & Hframe').
    + rewrite list_lookup_insert_eq; [done|]. rewrite length_app. simpl. lia.
    + lia.
    + intros j Hj. rewrite list_lookup_insert_ne by lia.
      rewrite lookup_app_l by lia. unfold h1.
      rewrite list_lookup_insert_ne by lia. by apply Hframe.
    + exists e', h'. split; [|done]. rewrite <- Hrun.
      st_run. rewrite He. simpl. rewrite Hfreeze. st_run. rewrite He. simpl.
      fold h1. rewrite lookup_app_r by done. rewrite Nat.sub_diag. simpl.
      rewrite lookup_app_r by done. rewrite Nat.sub_diag. simpl.
      reflexivity.
Qed.

(** C10: [_expand_labels] called on the array at [labels] returns an
    array at a location that was not in the caller's store (no aliasing
    with [labels] or with any other array of the caller), leaves every
    array of the caller's store, [labels] included, element-wise as it
    was, and the array it returns holds the expanded labels. *)
Theorem expand_labels_leaves_argument (h : Label.store) (labels : Label.loc)
    a distance max_area mask :
  h !! labels = Some a →
  ∃ out h',
    _expand_labels_obj labels distance max_area mask h = Some (out, h')
    ∧ h' !! labels = Some a
    ∧ (∀ j, j < length h → h' !! j = h !! j)
    ∧ length h ≤ out
    ∧ h' !! out = Some (_expand_labels a distance max_area mask).
Proof.
  intros Hl.
  assert (Hlab : labels < length h) by (by eapply lookup_lt_Some).
  destruct (expand_loop_obj_frame (Z.to_nat distance) max_area mask
              h (h ++ [a]) (length h) [] a)
    as (e' & h' & Hrun & Hout & Hfresh & Hframe).
  { rewrite lookup_app_r by done. by rewrite Nat.sub_diag. }
  { done. }
  { intros j Hj. by rewrite lookup_app_l. }
  rewrite expand_labels_unfold.
  eexists e', _. split; [|split; [|split; [|split]]].
  - unfold Label._expand_labels_obj. st_run. rewrite Hl. simpl.
    rewrite Hrun. simpl. rewrite Hout. simpl. rewrite Hout. reflexivity.
  - rewrite list_lookup_insert_ne by lia. rewrite Hframe by done. done.
  - intros j Hj. rewrite list_lookup_insert_ne by lia. by apply Hframe.
  - done.
  - apply list_lookup_insert_eq. by eapply lookup_lt_Some.
Qed.
End ExpandFacts.

Lemma expand_labels_leaves_argument_witness :
  ∃ out h',
    Label._expand_labels_obj Lib.expand_labels1 0 2 3 None [Inputs.row8]
    = Some (out, h')
    ∧ h' !! 0 = Some Inputs.row8
    ∧ (∀ j, j < 1 → h' !! j = [Inputs.row8] !! j)
    ∧ 1 ≤ out
    ∧ h' !! out = Some (Lib.expand_labels Inputs.row8 2 3 None).
Proof.
  apply (expand_labels_leaves_argument Lib.expand_labels1 [Inputs.row8] 0
           Inputs.row8 2 3 None).
  reflexivity.
Defined.

(* ===================================================================== *)
(** * Results: connected-component splitting *)
(* ===================================================================== *)

Lemma np_unique_elem (l : list nat) x : x ∈ Label.np_unique l ↔ x ∈ l.
Proof.
  unfold Label.np_unique.
  rewrite (merge_sort_Permutation le (remove_dups l)).
  apply elem_of_remove_dups.
Qed.

Lemma where_eq_elem v (l : list nat) i : i ∈ Label.where_eq v l ↔ l !! i = Some v.
Proof.
  unfold Label.where_eq. rewrite where_elem. split.
  - intros (x & Hx & Heq%Nat.eqb_eq). by subst.
  - intros Hi. exists v. split; [done|]. apply Nat.eqb_refl.
Qed.

Lemma max_list_bound (l : list nat) n : Forall (λ x, x ≤ n) l → max_list l ≤ n.
Proof. induction 1 as [|x l Hx _ IH]; simpl; lia. Qed.

(** [subset] is true exactly on the pixels of the listed components. *)
Lemma subset_mask_lookup (comps : Label.labels_t) sl p c :
  flat comps !! p = Some c →
  flat (Label.subset_mask comps sl) !! p = Some (bool_decide (c ∈ sl)).
Proof.
  intros Hc. unfold Label.subset_mask.
  assert (Hacc : ∀ (acc : ndarray bool) b,
    flat acc !! p = Some b →
    flat (foldl (Label.subset_step comps) acc sl) !! p
    = Some (b || bool_decide (c ∈ sl))).
  { induction sl as [|label sl IH]; intros acc b Hb.
    - simpl foldl. rewrite Hb. rewrite bool_decide_eq_false_2 by apply not_elem_of_nil.
      by rewrite orb_false_r.
    - simpl foldl. rewrite (IH _ (b || (label =? c)%nat)); last first.
      { unfold Label.subset_step. simpl.
        rewrite lookup_zip_with, Hb, list_lookup_fmap, Hc. reflexivity. }
      f_equal. destruct b; simpl; [done|].
      destruct (Nat.eqb_spec label c) as [->|Hne]; simpl.
      + symmetry. apply bool_decide_eq_true. apply list_elem_of_here.
      + apply bool_decide_ext. rewrite elem_of_cons.
        split; [by right|]. by intros [?|?]; [subst|]. }
  rewrite (Hacc _ false); [done|]. simpl.
  apply lookup_replicate_2. by eapply lookup_lt_Some.
Qed.

Section FixLabels.
Variables (sl : list nat) (ml : nat) (expanded : Label.labels_t).

Abbreviation step := (Label.relabel_step sl ml expanded).

Lemma relabel_steps_length ls : ∀ fixed,
  length (flat (foldl step fixed ls)) = length (flat fixed).
Proof.
  induction ls as [|label ls IH]; intros fixed; simpl; [done|].
  rewrite IH. unfold Label.relabel_step. destruct (0 <? label)%nat; [|done].
  simpl. apply assign_at_length.
Qed.

Lemma relabel_step_lookup fixed label p l v :
  flat expanded !! p = Some l →
  flat fixed !! p = Some v →
  flat (step fixed label) !! p
  = Some (if bool_decide (l = label) && (0 <? label)%nat
          then Label.new_label sl ml label else v).
Proof.
  intros Hl Hv. unfold Label.relabel_step.
  destruct (0 <? label)%nat eqn:Hpos; [|by rewrite andb_false_r].
  simpl. rewrite assign_at_lookup, Hv, andb_true_r. simpl.
  destruct (decide (p ∈ Label.where_eq label (flat expanded))) as [Hin|Hin].
  - apply where_eq_elem in Hin. assert (l = label) as -> by congruence.
    by rewrite bool_decide_eq_true_2.
  - rewrite bool_decide_eq_false_2; [done|].
    intros ->. apply Hin. by apply where_eq_elem.
Qed.

Lemma relabel_steps_lookup ls p l : ∀ fixed v,
  flat expanded !! p = Some l →
  flat fixed !! p = Some v →
  flat (foldl step fixed ls) !! p
  = Some (if bool_decide (l ∈ ls) && (0 <? l)%nat
          then Label.new_label sl ml l else v).
Proof.
  induction ls as [|label ls IH]; intros fixed v Hl Hv.
  - simpl foldl. by rewrite bool_decide_eq_false_2 by apply not_elem_of_nil.
  - simpl foldl.
    rewrite (IH _ _ Hl (relabel_step_lookup fixed label p l v Hl Hv)).
    f_equal.
    destruct (decide (l = label)) as [->|Hne].
    + rewrite (bool_decide_eq_true_2 (label = label)) by done.
      rewrite (bool_decide_eq_true_2 (label ∈ label :: ls))
        by apply list_elem_of_here.
      simpl. destruct (0 <? label)%nat; [|by rewrite andb_false_r].
      by destruct (bool_decide _).
    + rewrite (bool_decide_eq_false_2 (l = label)) by done. simpl.
      replace (bool_decide (l ∈ label :: ls)) with (bool_decide (l ∈ ls)); [done|].
      apply bool_decide_ext. rewrite elem_of_cons.
      split; [by right|]. by intros [?|?]; [subst|].
Qed.

Lemma fix_labels_lookup p :
  flat (Label.fix_labels sl ml expanded) !! p
  = (λ l, if (0 <? l)%nat then Label.new_label sl ml l else l)
      <$> flat expanded !! p.
Proof.
  unfold Label.fix_labels.
  destruct (flat expanded !! p) as [l|] eqn:Hl; simpl.
  - rewrite (relabel_steps_lookup _ p l expanded l) by done.
    rewrite bool_decide_eq_true_2; [done|].
    apply np_unique_elem. by eapply list_elem_of_lookup_2.
  - apply lookup_ge_None. rewrite relabel_steps_length.
    by apply lookup_ge_None.
Qed.
End FixLabels.

(** A positive label is given the identifier of an oversized component
    while those last, and the next integers after [max_label] afterwards. *)
Lemma new_label_cases sl ml l :
  0 < l →
  (l ≤ length sl ∧ sl !! (l - 1) = Some (Label.new_label sl ml l))
  ∨ (length sl < l ∧ Label.new_label sl ml l = ml + (l - length sl)).
Proof.
  intros Hl. unfold Label.new_label.
  destruct (Nat.leb_spec l (length sl)) as [Hle|Hgt].
  - left. split; [done|].
    destruct (lookup_lt_is_Some_2 sl (l - 1)) as [x Hx]; [lia|].
    by rewrite Hx.
  - right. split; [done|]. lia.
Qed.

Section ComponentsFacts.
Variable connected_components_with_stats : ndarray bool → Label.labels_t * list nat.
Variable connected_components : ndarray bool → Label.labels_t.
Variable safe_erode : ndarray bool → Z → Z → Z → ndarray bool.
Variable expand_labels1 : Label.labels_t → Label.labels_t.

Abbreviation _label_connected_components :=
  (Label._label_connected_components connected_components_with_stats
     connected_components safe_erode expand_labels1).

Abbreviation expanded_of :=
  (Spec.expanded_of connected_components_with_stats connected_components
     safe_erode expand_labels1).

(** The output, pixel by pixel: inside the oversized region the
    renamed label of [expanded], outside it the original component. *)
Lemma label_connected_components_pixels X k min_area n_iter distance max_area :
  let comps := (connected_components_with_stats X).1 in
  let sl := Label.oversized (connected_components_with_stats X).2 max_area in
  flat comps ≠ [] →
  ∃ out,
    _label_connected_components X k min_area n_iter distance max_area = Ok out
    ∧ ∀ p c a,
        flat comps !! p = Some c →
        flat out !! p = Some a →
        if bool_decide (c ∈ sl)
        then ∃ l, flat (expanded_of X k min_area n_iter distance max_area) !! p
                  = Some l
                  ∧ a = (if (0 <? l)%nat
                         then Label.new_label sl (max_list (flat comps)) l
                         else l)
        else a = c.
Proof.
  intros comps sl Hne.
  unfold Label._label_connected_components, Spec.expanded_of, Label.split_region.
  subst comps sl.
  destruct (connected_components_with_stats X) as [comps areas]. simpl in *.
  unfold Label.np_max. destruct (flat comps) as [|c0 cs] eqn:Hflat; [done|].
  rewrite <- Hflat in *. simpl.
  eexists. split; [reflexivity|].
  intros p c a Hc Hout. simpl in Hout.
  rewrite assign_from_lookup in Hout.
  set (sl := Label.oversized areas max_area) in *.
  pose proof (subset_mask_lookup comps sl p c Hc) as Hsub.
  rewrite fix_labels_lookup in Hout.
  destruct (bool_decide (c ∈ sl)) eqn:Hin.
  - rewrite decide_False in Hout.
    + destruct (flat (Label._expand_labels _ _ _ _ _) !! p) as [l|]; [|done].
      simpl in Hout. exists l. split; [done|]. congruence.
    + intros (b & Hb & Hneg)%where_elem. rewrite Hsub in Hb.
      injection Hb as <-. done.
  - rewrite decide_True in Hout.
    + rewrite Hc in Hout.
      destruct (flat (Label._expand_labels _ _ _ _ _) !! p); simpl in Hout;
        congruence.
    + apply where_elem. exists false. done.
Qed.

(** C6: a positive output label on a pixel of an oversized (split)
    component is the identifier of an oversized component or exceeds
    the maximum pre-existing label; labels of [expanded] beyond the
    number of oversized components get [max_label + 1], [max_label + 2],
    ... in order; pixels of the other components keep their identifier;
    so no label of a split fragment equals a label of an un-split
    component. *)
Theorem split_labels_do_not_collide X k min_area n_iter distance max_area :
  let comps := (connected_components_with_stats X).1 in
  let sl := Label.oversized (connected_components_with_stats X).2 max_area in
  let max_label := max_list (flat comps) in
  flat comps ≠ [] →
  ∃ out,
    _label_connected_components X k min_area n_iter distance max_area = Ok out
    ∧ ∀ p cp a,
        flat comps !! p = Some cp → cp ∈ sl →
        flat out !! p = Some a → 0 < a →
        (a ∈ sl ∨ max_label < a)
        ∧ (∀ l, flat (expanded_of X k min_area n_iter distance max_area) !! p
                = Some l →
                length sl < l → a = max_label + (l - length sl))
        ∧ (∀ q cq b,
             flat comps !! q = Some cq → cq ∉ sl →
             flat out !! q = Some b →
             b = cq ∧ a ≠ b).
Proof.
  intros comps sl max_label Hne.
  destruct (label_connected_components_pixels X k min_area n_iter distance
              max_area Hne) as (out & Hrun & Hpix).
  exists out. split; [exact Hrun|].
  intros p cp a Hcp Hin Hout Hpos.
  pose proof (Hpix p cp a Hcp Hout) as Hp.
  rewrite bool_decide_eq_true_2 in Hp by done.
  destruct Hp as (l & Hl & Ha).
  destruct (Nat.ltb_spec 0 l) as [Hlpos|Hlpos]; [|lia].
  fold comps sl max_label in Ha.
  destruct (new_label_cases sl max_label l Hlpos) as [[Hle Hreuse]|[Hgt Hnew]].
  - assert (Hasl : a ∈ sl).
    { subst a. by eapply list_elem_of_lookup_2. }
    split; [by left|]. split.
    + intros l' Hl' Hlen. assert (l' = l) as -> by congruence. lia.
    + intros q cq b Hcq Hnin Hq.
      pose proof (Hpix q cq b Hcq Hq) as Hb.
      rewrite bool_decide_eq_false_2 in Hb by done.
      split; [done|]. intros ->. by subst.
  - split; [right; lia|]. split.
    + intros l' Hl' Hlen. assert (l' = l) as -> by congruence. lia.
    + intros q cq b Hcq Hnin Hq.
      pose proof (Hpix q cq b Hcq Hq) as Hb.
      rewrite bool_decide_eq_false_2 in Hb by done.
      split; [done|].
      assert (cq ≤ max_label).
      { apply max_list_elem_of_le. by eapply list_elem_of_lookup_2. }
      lia.
Qed.

End ComponentsFacts.

(* ===================================================================== *)
(** * Concrete runs of the splitter *)
(* ===================================================================== *)

(** The line of [Inputs.line] is one component of area 1000. *)
Lemma line_is_single_component :
  Spec.single_component Inputs.line 1000
    (Lib.connected_components_with_stats Inputs.line).
Proof.
  split; [|split].
  - vm_compute. reflexivity.
  - exists 2006. vm_compute. reflexivity.
  - vm_compute. reflexivity.
Qed.



Lemma split_labels_do_not_collide_witness :
  ∃ out,
    Lib.label_connected_components Inputs.two_blobs 3 1 1 1 4 = Ok out
    ∧ flat out = [1; 1; 0; 0; 0; 2; 1; 1; 0; 0; 0; 2].
Proof.
  destruct (split_labels_do_not_collide
              Lib.connected_components_with_stats Lib.connected_components
              Lib.safe_erode Lib.expand_labels1 Inputs.two_blobs 3 1 1 1 4)
    as (out & Hrun & _).
  - vm_compute. discriminate.
  - exists out. split; [exact Hrun|].
    assert (Hval : Lib.label_connected_components Inputs.two_blobs 3 1 1 1 4
                   = Ok (NdArray 2 6 [1; 1; 0; 0; 0; 2; 1; 1; 0; 0; 0; 2]))
      by (vm_compute; reflexivity).
    unfold Lib.label_connected_components in Hval.
    rewrite Hrun in Hval. by injection Hval as ->.
Defined.

(* ===================================================================== *)
(** * Further results: how [nbn_em] runs *)
(* ===================================================================== *)

Section EstimatorRuns.
Variable np_log : float → float.
Variable nbinom_pmf : float → float → float → float.
Variable digamma : float → float.
Variable np_sum : list float → float.

Abbreviation nbn_em := (Em.nbn_em np_log nbinom_pmf digamma np_sum).
Abbreviation em_update := (Em.em_update np_log nbinom_pmf digamma np_sum).
Abbreviation em_loop := (Em.em_loop np_log nbinom_pmf digamma np_sum).
Abbreviation em_init := (Em.em_init np_log).
Abbreviation to_wrp := (Em.to_wrp np_log).
(** The parameters after [k] passes through the loop body. *)
Abbreviation iterate X k p := (Nat.iter k (em_update X) p).
(** The test of line 97 for the pass that starts from [p]. *)
Abbreviation stops X precision p :=
  (Em.converged precision (em_update X p) p || Em.has_nan (em_update X p)).

(** While the test of line 97 fails, [prev] follows [cur]. *)
Lemma em_loop_continues X precision k : ∀ m p b,
  (∀ j, j < k → stops X precision (iterate X j p) = false) →
  em_loop (k + m) X precision (Em.LoopState p p b)
  = em_loop m X precision
      (Em.LoopState (iterate X k p) (iterate X k p)
                    (match k with O => b | S _ => Some false end)).
Proof.
  induction k as [|k IH]; intros m p b Hgo; [done|].
  pose proof (Hgo 0 ltac:(lia)) as H0. simpl in H0.
  change (S k + m) with (S (k + m)). cbn [Em.em_loop Em.ls_cur Em.ls_prev].
  rewrite H0. apply orb_false_elim in H0 as [_ Hnan]. rewrite Hnan.
  rewrite IH.
  - rewrite <- Nat.iter_succ_r. by destruct k.
  - intros j Hj. rewrite <- Nat.iter_succ_r. apply Hgo. lia.
Qed.

(** A run in which no pass meets the test ends on the last iterate. *)
Lemma em_loop_to_cap X precision n p b :
  0 < n →
  (∀ j, j < n → stops X precision (iterate X j p) = false) →
  Em.em_select (em_loop n X precision (Em.LoopState p p b)) = Ok (iterate X n p).
Proof.
  intros Hn Hgo.
  pose proof (em_loop_continues X precision n 0 p b Hgo) as Hrun.
  rewrite Nat.add_0_r in Hrun. rewrite Hrun. simpl. by destruct n; [lia|].
Qed.

(** A run whose pass [k + 1] is the first to meet the test. *)
Lemma em_loop_stops_at X precision n k p b :
  k < n →
  (∀ j, j < k → stops X precision (iterate X j p) = false) →
  stops X precision (iterate X k p) = true →
  Em.em_select (em_loop n X precision (Em.LoopState p p b))
  = Ok (if Em.has_nan (iterate X (S k) p) then iterate X k p
        else iterate X (S k) p).
Proof.
  intros Hk Hgo Hstop.
  replace n with (k + S (n - S k)) by lia.
  rewrite em_loop_continues by done.
  cbn [Em.em_loop Em.ls_cur Em.ls_prev]. rewrite Hstop.
  unfold Em.em_select. cbn [Em.ls_isnan Em.ls_cur Em.ls_prev].
  change (em_update X (iterate X k p)) with (iterate X (S k) p).
  by destruct (Em.has_nan _).
Qed.

(** Either no pass before the [n]-th meets the test, or there is a first
    one that does. *)
Lemma first_stop X precision p n :
  (∀ j, j < n → stops X precision (iterate X j p) = false)
  ∨ ∃ k, k < n ∧ stops X precision (iterate X k p) = true
         ∧ ∀ j, j < k → stops X precision (iterate X j p) = false.
Proof.
  induction n as [|n [IH|(k & Hk & Hstop & Hgo)]].
  - left. intros j Hj. lia.
  - destruct (stops X precision (iterate X n p)) eqn:Hn.
    + right. exists n. split; [lia|]. split; [done|]. exact IH.
    + left. intros j Hj. destruct (decide (j = n)) as [->|]; [done|].
      apply IH. lia.
  - right. exists k. split; [lia|]. done.
Qed.

(** X1: [nbn_em] raises exactly when [max_iter <= 0], and then it is
    the [UnboundLocalError] of the unbound [isnan]: a negative
    [max_iter] behaves like 0, and from [max_iter = 1] on every call
    returns. *)
Theorem nbn_em_raises_iff X w mu var max_iter precision e :
  nbn_em X w mu var max_iter precision = Raise e
  ↔ (max_iter ≤ 0)%Z ∧ e = UnboundLocalError.
Proof.
  split.
  - intros Hraise. destruct (decide (0 < max_iter)%Z) as [Hpos|Hneg].
    + destruct (nbn_em_returns_valid_snapshot np_log nbinom_pmf digamma np_sum
                  X w mu var max_iter precision Hpos) as (s & Hs & _).
      congruence.
    + split; [lia|]. unfold Em.nbn_em in Hraise.
      replace (Z.to_nat max_iter) with 0 in Hraise by lia.
      simpl in Hraise. congruence.
  - intros [Hle ->]. unfold Em.nbn_em.
    by replace (Z.to_nat max_iter) with 0 by lia.
Qed.

(** X2: if pass [k + 1 <= max_iter] is the first whose new parameters
    have converged or contain NaN, [nbn_em] stops there: it returns the
    parameters of pass [k + 1] when they are free of NaN, and those of
    pass [k] (the initial ones for [k = 0]) when they are not. *)
Theorem nbn_em_stops_at_first_test X w mu var max_iter precision k :
  let p0 := Em.ls_cur (em_init w mu var) in
  (Z.of_nat k < max_iter)%Z →
  (∀ j, j < k → stops X precision (iterate X j p0) = false) →
  stops X precision (iterate X k p0) = true →
  nbn_em X w mu var max_iter precision
  = Ok (to_wrp (if Em.has_nan (iterate X (S k) p0) then iterate X k p0
                else iterate X (S k) p0)).
Proof.
  intros p0 Hk Hgo Hstop. unfold Em.nbn_em.
  change (em_init w mu var) with (Em.LoopState p0 p0 None).
  rewrite (em_loop_stops_at X precision _ k); [done|lia|done|done].
Qed.

(** X3: if none of the [max_iter >= 1] passes converges or produces
    NaN, [nbn_em] returns the parameters of the last pass. *)
Theorem nbn_em_runs_to_cap X w mu var max_iter precision :
  let p0 := Em.ls_cur (em_init w mu var) in
  (0 < max_iter)%Z →
  (∀ j, j < Z.to_nat max_iter → stops X precision (iterate X j p0) = false) →
  nbn_em X w mu var max_iter precision
  = Ok (to_wrp (iterate X (Z.to_nat max_iter) p0)).
Proof.
  intros p0 Hpos Hgo. unfold Em.nbn_em.
  change (em_init w mu var) with (Em.LoopState p0 p0 None).
  rewrite em_loop_to_cap; [done|lia|done].
Qed.

(** X4: with [max_iter >= 1], what [nbn_em] returns are the parameters
    after some number [k <= max_iter] of passes, and for [k > 0] they
    are free of NaN: a NaN value of [w], [lam] or [theta] is never
    returned unless it was in the initial values. *)
Theorem nbn_em_returns_an_iterate X w mu var max_iter precision :
  let p0 := Em.ls_cur (em_init w mu var) in
  (0 < max_iter)%Z →
  ∃ k, (Z.of_nat k ≤ max_iter)%Z
       ∧ nbn_em X w mu var max_iter precision = Ok (to_wrp (iterate X k p0))
       ∧ (k = 0 ∨ Em.has_nan (iterate X k p0) = false).
Proof.
  intros p0 Hpos. unfold Em.nbn_em.
  change (em_init w mu var) with (Em.LoopState p0 p0 None).
  assert (Hprev : ∀ k, (∀ j, j < k → stops X precision (iterate X j p0) = false) →
                       k = 0 ∨ Em.has_nan (iterate X k p0) = false).
  { intros [|k] Hgo; [by left|right].
    by destruct (orb_false_elim _ _ (Hgo k ltac:(lia))). }
  destruct (first_stop X precision p0 (Z.to_nat max_iter))
    as [Hgo|(k & Hk & Hstop & Hgo)].
  - exists (Z.to_nat max_iter). split; [lia|].
    rewrite em_loop_to_cap; [|lia|done]. split; [done|]. by apply Hprev.
  - rewrite (em_loop_stops_at X precision _ k) by done.
    destruct (Em.has_nan (iterate X (S k) p0)) eqn:Hnan.
    + exists k. split; [lia|]. split; [done|]. by apply Hprev.
    + exists (S k). split; [lia|]. split; [done|]. by right.
Qed.
End EstimatorRuns.

Lemma nbn_em_stops_at_first_test_witness :
  Em.nbn_em Inputs.ident Inputs.flat_pmf Inputs.ident Inputs.left_sum
    [3; 4]%float (0.5, 0.5)%float (10, 300)%float (20, 400)%float 5 1e4%float
  = Ok ((0.5, 0.5), (-45.5, -3876.1153846153852),
        (0.76923076923076927, 0.81266930610543853))%float.
Proof.
  rewrite (nbn_em_stops_at_first_test Inputs.ident Inputs.flat_pmf Inputs.ident
             Inputs.left_sum [3; 4]%float (0.5, 0.5)%float (10, 300)%float
             (20, 400)%float 5 1e4%float 0).
  - vm_compute. reflexivity.
  - lia.
  - intros j Hj. lia.
  - vm_compute. reflexivity.
Defined.

Lemma nbn_em_runs_to_cap_witness :
  Em.nbn_em Inputs.ident Inputs.flat_pmf Inputs.ident Inputs.left_sum
    [3; 4]%float (0.5, 0.5)%float (10, 300)%float (20, 400)%float 1 1e-6%float
  = Ok ((0.5, 0.5), (-45.5, -3876.1153846153852),
        (0.76923076923076927, 0.81266930610543853))%float.
Proof.
  rewrite (nbn_em_runs_to_cap Inputs.ident Inputs.flat_pmf Inputs.ident
             Inputs.left_sum [3; 4]%float (0.5, 0.5)%float (10, 300)%float
             (20, 400)%float 1 1e-6%float).
  - vm_compute. reflexivity.
  - lia.
  - intros [|j] Hj; [|simpl in Hj; lia]. vm_compute. reflexivity.
Defined.

Lemma nbn_em_returns_an_iterate_witness :
  ∃ k, (Z.of_nat k ≤ 3)%Z
       ∧ Em.nbn_em Inputs.ident Inputs.flat_pmf Inputs.ident Inputs.left_sum
           [3; 4]%float (0.5, 0.5)%float (10, 300)%float (20, 400)%float 3 1e-6%float
         = Ok (Em.to_wrp Inputs.ident
                 (Nat.iter k (Em.em_update Inputs.ident Inputs.flat_pmf Inputs.ident
                                Inputs.left_sum [3; 4]%float)
                    (Em.ls_cur (Em.em_init Inputs.ident (0.5, 0.5)%float
                                  (10, 300)%float (20, 400)%float))))
       ∧ (k = 0 ∨ Em.has_nan
                    (Nat.iter k (Em.em_update Inputs.ident Inputs.flat_pmf Inputs.ident
                                   Inputs.left_sum [3; 4]%float)
                       (Em.ls_cur (Em.em_init Inputs.ident (0.5, 0.5)%float
                                     (10, 300)%float (20, 400)%float))) = false).
Proof.
  apply (nbn_em_returns_an_iterate Inputs.ident Inputs.flat_pmf Inputs.ident
           Inputs.left_sum [3; 4]%float (0.5, 0.5)%float (10, 300)%float
           (20, 400)%float 3 1e-6%float).
  lia.
Defined.

(* ===================================================================== *)
(** * Further results: the posterior scorer *)
(* ===================================================================== *)

(** A loop that updates two accumulators side by side is two loops. *)
Lemma foldl_pair {A B C} (f1 : A → C → A) (f2 : B → C → B)
    (step : A * B → C → A * B) l : ∀ a b,
  (∀ acc it, step acc it = (f1 acc.1 it, f2 acc.2 it)) →
  foldl step (a, b) l = (foldl f1 a l, foldl f2 b l).
Proof.
  induction l as [|x l IH]; intros a b Hstep; simpl; [done|].
  rewrite Hstep. simpl. by apply IH.
Qed.

Lemma bin_indices_elem (b : ndarray Z) label i :
  i ∈ Em.bin_indices b label ↔ flat b !! i = Some label.
Proof.
  unfold Em.bin_indices. rewrite where_elem. split.
  - intros (x & Hx & Heq%Z.eqb_eq). by subst.
  - intros Hi. exists label. split; [done|]. apply Z.eqb_refl.
Qed.

Section PerBinLoops.
Context {V : Type}.
Variable b : ndarray Z.
(** What an entry of the mapping writes on its pixels. *)
Variable src : Z * V → list float.

Abbreviation write_bin :=
  (λ (acc : list float) (it : Z * V), assign_from (Em.bin_indices b it.1) (src it) acc).

Lemma write_bins_length d : ∀ acc, length (foldl write_bin acc d) = length acc.
Proof.
  induction d as [|it d IH]; intros acc; simpl; [done|].
  by rewrite IH, assign_from_length.
Qed.

(** A pixel whose bin is not a key is never written. *)
Lemma write_bins_untouched d i label : ∀ acc,
  flat b !! i = Some label → label ∉ d.*1 →
  foldl write_bin acc d !! i = acc !! i.
Proof.
  induction d as [|it d IH]; intros acc Hb Hnin; simpl; [done|].
  rewrite IH; [|done|].
  - rewrite assign_from_lookup. rewrite decide_False; [done|].
    intros Hin%bin_indices_elem. apply Hnin.
    assert (it.1 = label) as <- by congruence. simpl. apply list_elem_of_here.
  - intros Hin. apply Hnin. simpl. by apply list_elem_of_further.
Qed.

(** A pixel whose bin is a key ends with what the entry of that key
    writes (keys of a dict are distinct). *)
Lemma write_bins_hit d i it v : ∀ acc,
  NoDup d.*1 → it ∈ d →
  flat b !! i = Some it.1 → src it !! i = Some v → i < length acc →
  foldl write_bin acc d !! i = Some v.
Proof.
  induction d as [|it' d IH]; intros acc Hnd Hin Hb Hsrc Hlen.
  { by apply elem_of_nil in Hin. }
  simpl in Hnd. apply NoDup_cons in Hnd as [Hnew Hnd]. simpl.
  apply elem_of_cons in Hin as [<-|Hin].
  - rewrite (write_bins_untouched d i it.1) by done.
    rewrite assign_from_lookup, decide_True by (by apply bin_indices_elem).
    rewrite Hsrc. apply lookup_lt_is_Some in Hlen as [x ->]. done.
  - apply IH; [done|done|done|done|]. by rewrite assign_from_length.
Qed.
End PerBinLoops.

Section ScorerRuns.
Variable nbinom_pmf : float → float → float → float.

Abbreviation conditionals := (Em.conditionals nbinom_pmf).
Abbreviation confidence := (Em.confidence nbinom_pmf).
(** The posterior of the cell class at a pixel of value [x]. *)
Abbreviation posterior w r p x :=
  (w.2 * nbinom_pmf r.2 p.2 x / (w.1 * nbinom_pmf r.1 p.1 x + w.2 * nbinom_pmf r.2 p.2 x))%float.

(** The two arrays of [conditionals] for a per-bin mapping. *)
Lemma conditionals_per_bin X d b :
  conditionals X (Em.PerBin d) (Some b)
  = Ok (with_flat X
          (foldl (λ acc (it : Z * Em.params),
                    assign_from (Em.bin_indices b it.1)
                      (nbinom_pmf it.2.1.2.1 it.2.2.1 <$> flat X) acc)
                 (replicate (length (flat X)) 0%float) d),
        with_flat X
          (foldl (λ acc (it : Z * Em.params),
                    assign_from (Em.bin_indices b it.1)
                      (nbinom_pmf it.2.1.2.2 it.2.2.2 <$> flat X) acc)
                 (replicate (length (flat X)) 0%float) d)).
Proof.
  unfold Em.conditionals. simpl.
  rewrite (foldl_pair
             (λ acc (it : Z * Em.params),
                assign_from (Em.bin_indices b it.1)
                  (nbinom_pmf it.2.1.2.1 it.2.2.1 <$> flat X) acc)
             (λ acc (it : Z * Em.params),
                assign_from (Em.bin_indices b it.1)
                  (nbinom_pmf it.2.1.2.2 it.2.2.2 <$> flat X) acc));
    [done|]. by intros acc [label [[w r] p]].
Qed.

(** The two arrays [tau0], [tau1] of [confidence] for a per-bin mapping. *)
Lemma confidence_per_bin X d b :
  confidence X (Em.PerBin d) (Some b)
  = (λ c : ndarray float * ndarray float,
       with_flat X
         (zip_with (λ t0 t1, t1 / (t0 + t1))%float
            (foldl (λ acc (it : Z * Em.params),
                      assign_from (Em.bin_indices b it.1)
                        (PrimFloat.mul it.2.1.1.1 <$> flat c.1) acc)
                   (replicate (length (flat X)) 0%float) d)
            (foldl (λ acc (it : Z * Em.params),
                      assign_from (Em.bin_indices b it.1)
                        (PrimFloat.mul it.2.1.1.2 <$> flat c.2) acc)
                   (replicate (length (flat X)) 0%float) d)))
    <$> conditionals X (Em.PerBin d) (Some b).
Proof.
  rewrite conditionals_per_bin. unfold Em.confidence.
  rewrite conditionals_per_bin. simpl.
  erewrite (foldl_pair
              (λ acc (it : Z * Em.params),
                 assign_from (Em.bin_indices b it.1)
                   (PrimFloat.mul it.2.1.1.1 <$> _) acc)
              (λ acc (it : Z * Em.params),
                 assign_from (Em.bin_indices b it.1)
                   (PrimFloat.mul it.2.1.1.2 <$> _) acc));
    [done|]. by intros acc [label [[w r] p]].
Qed.

(** X5: for a single tuple [(w, r, p)], [confidence] has the shape of
    [X] and is, at every pixel, the posterior
    [w1*cp / (w0*bp + w1*cp)] of that pixel's value, whatever [bins] is. *)
Theorem confidence_single_is_posterior X w r p bins :
  ∃ out,
    confidence X (Em.Single (w, r, p)) bins = Ok out
    ∧ rows out = rows X ∧ cols out = cols X
    ∧ length (flat out) = length (flat X)
    ∧ ∀ i, flat out !! i = (λ x, posterior w r p x) <$> flat X !! i.
Proof.
  eexists. split; [reflexivity|]. simpl.
  split; [done|]. split; [done|]. split.
  - by rewrite length_zip_with, !length_fmap, Nat.min_id.
  - intros i. rewrite lookup_zip_with, !list_lookup_fmap.
    by destruct (flat X !! i).
Qed.

(** X6: for a per-bin mapping, a pixel whose bin [label] is a key of
    the mapping is scored with the parameters stored under [label]:
    [conditionals] gives the two likelihoods of its value under those
    parameters and [confidence] their posterior. *)
Theorem per_bin_pixel_uses_its_bin X d b i label w r p x :
  NoDup d.*1 →
  (label, (w, r, p)) ∈ d →
  flat b !! i = Some label →
  flat X !! i = Some x →
  ∃ bp cp out,
    conditionals X (Em.PerBin d) (Some b) = Ok (bp, cp)
    ∧ flat bp !! i = Some (nbinom_pmf r.1 p.1 x)
    ∧ flat cp !! i = Some (nbinom_pmf r.2 p.2 x)
    ∧ confidence X (Em.PerBin d) (Some b) = Ok out
    ∧ flat out !! i = Some (posterior w r p x).
Proof.
  intros Hnd Hin Hb Hx.
  assert (Hlen : i < length (replicate (length (flat X)) 0%float)).
  { rewrite length_replicate. by eapply lookup_lt_Some. }
  rewrite confidence_per_bin, conditionals_per_bin.
  eexists _, _, _. split; [reflexivity|]. simpl.
  assert (Hbp : ∀ k : Em.params → float * float,
    foldl (λ acc (it : Z * Em.params),
             assign_from (Em.bin_indices b it.1)
               (nbinom_pmf (k it.2).1 (k it.2).2 <$> flat X) acc)
          (replicate (length (flat X)) 0%float) d !! i
    = Some (nbinom_pmf (k (w, r, p)).1 (k (w, r, p)).2 x)).
  { intros k.
    apply (write_bins_hit b
             (λ it : Z * Em.params, nbinom_pmf (k it.2).1 (k it.2).2 <$> flat X)
             d i (label, (w, r, p))); try done.
    by rewrite list_lookup_fmap, Hx. }
  pose proof (Hbp (λ m, (m.1.2.1, m.2.1))) as Hbp0.
  pose proof (Hbp (λ m, (m.1.2.2, m.2.2))) as Hcp0. simpl in Hbp0, Hcp0.
  split; [exact Hbp0|]. split; [exact Hcp0|]. split; [reflexivity|]. simpl.
  set (bp := foldl _ _ d) in Hbp0 |- *. set (cp := foldl _ _ d) in Hcp0 |- *.
  assert (Htau : ∀ (k : Em.params → float) (c : list float) v,
    c !! i = Some v →
    foldl (λ acc (it : Z * Em.params),
             assign_from (Em.bin_indices b it.1) (PrimFloat.mul (k it.2) <$> c) acc)
          (replicate (length (flat X)) 0%float) d !! i
    = Some (k (w, r, p) * v)%float).
  { intros k c v Hc.
    apply (write_bins_hit b
             (λ it : Z * Em.params, PrimFloat.mul (k it.2) <$> c)
             d i (label, (w, r, p))); try done.
    by rewrite list_lookup_fmap, Hc. }
  rewrite lookup_zip_with.
  rewrite (Htau (λ m, m.1.1.1) bp _ Hbp0), (Htau (λ m, m.1.1.2) cp _ Hcp0).
  reflexivity.
Qed.

(** X7: for a per-bin mapping, a pixel whose bin is not a key of the
    mapping (bin 0 of [run_em], or any bin left out) gets likelihood 0
    from [conditionals] for both classes, and [confidence] returns
    [0/0], a NaN, there: whatever [X], the mapping and the pmf are. *)
Theorem unbinned_pixel_is_nan X d b i label :
  flat b !! i = Some label →
  label ∉ d.*1 →
  i < length (flat X) →
  ∃ bp cp out v,
    conditionals X (Em.PerBin d) (Some b) = Ok (bp, cp)
    ∧ flat bp !! i = Some 0%float ∧ flat cp !! i = Some 0%float
    ∧ confidence X (Em.PerBin d) (Some b) = Ok out
    ∧ flat out !! i = Some v
    ∧ PrimFloat.is_nan v = true ∧ F.in_unit v = false.
Proof.
  intros Hb Hnin Hlen.
  rewrite confidence_per_bin, conditionals_per_bin.
  eexists _, _, _, _. split; [reflexivity|]. simpl.
  rewrite !(write_bins_untouched b _ d i label) by done.
  rewrite lookup_replicate_2 by done.
  split; [done|]. split; [done|]. split; [reflexivity|]. simpl.
  rewrite lookup_zip_with.
  rewrite !(write_bins_untouched b _ d i label) by done.
  rewrite lookup_replicate_2 by done. simpl.
  split; [reflexivity|]. split; vm_compute; reflexivity.
Qed.
End ScorerRuns.

Lemma per_bin_pixel_uses_its_bin_witness :
  ∃ bp cp out,
    Em.conditionals Inputs.flat_pmf Inputs.X2 (Em.PerBin [(1%Z, Inputs.fit2)])
      (Some Inputs.bins2) = Ok (bp, cp)
    ∧ flat bp !! 1 = Some 0.5%float
    ∧ flat cp !! 1 = Some 0.5%float
    ∧ Em.confidence Inputs.flat_pmf Inputs.X2 (Em.PerBin [(1%Z, Inputs.fit2)])
        (Some Inputs.bins2) = Ok out
    ∧ flat out !! 1 = Some 0.5%float.
Proof.
  apply (per_bin_pixel_uses_its_bin Inputs.flat_pmf Inputs.X2
           [(1%Z, Inputs.fit2)] Inputs.bins2 1 1%Z (0.5, 0.5)%float
           (2, 3)%float (0.5, 0.5)%float 4%float).
  - apply NoDup_singleton.
  - apply list_elem_of_here.
  - reflexivity.
  - reflexivity.
Defined.

Lemma unbinned_pixel_is_nan_witness :
  ∃ bp cp out v,
    Em.conditionals Inputs.flat_pmf Inputs.X2 (Em.PerBin [(1%Z, Inputs.fit2)])
      (Some Inputs.bins2) = Ok (bp, cp)
    ∧ flat bp !! 0 = Some 0%float ∧ flat cp !! 0 = Some 0%float
    ∧ Em.confidence Inputs.flat_pmf Inputs.X2 (Em.PerBin [(1%Z, Inputs.fit2)])
        (Some Inputs.bins2) = Ok out
    ∧ flat out !! 0 = Some v
    ∧ PrimFloat.is_nan v = true ∧ F.in_unit v = false.
Proof.
  apply (unbinned_pixel_is_nan Inputs.flat_pmf Inputs.X2
           [(1%Z, Inputs.fit2)] Inputs.bins2 0 0%Z).
  - reflexivity.
  - simpl. rewrite list_elem_of_singleton. lia.
  - simpl. lia.
Defined.

(* ===================================================================== *)
(** * Further results: the pools of [run_em] *)
(* ===================================================================== *)

Section DictFacts.
Context {K V : Type} `{EqDecision K}.

Lemma dict_set_keys (k : K) (v : V) d :
  (dict_set k v d).*1 = if decide (k ∈ d.*1) then d.*1 else d.*1 ++ [k].
Proof.
  induction d as [|[k' v'] d IH]; [done|].
  cbn [dict_set]. destruct (decide (k = k')) as [->|Hne]; rewrite !fmap_cons.
  - by rewrite decide_True by apply list_elem_of_here.
  - rewrite IH. cbn [fst]. destruct (decide (k ∈ d.*1)) as [Hin|Hnin].
    + by rewrite decide_True by (by apply list_elem_of_further).
    + rewrite decide_False; [done|]. by intros [?|?]%elem_of_cons.
Qed.

Lemma dict_set_values (P : V → Prop) (k : K) (v : V) d :
  P v → Forall (λ kv, P kv.2) d → Forall (λ kv, P kv.2) (dict_set k v d).
Proof.
  intros Hv. induction 1 as [|[k' v'] d Hx Hd IH]; simpl.
  - by repeat constructor.
  - destruct (decide (k = k')); constructor; done.
Qed.

(** Filing distinct new keys one after the other appends them. *)
Lemma dict_set_all_keys {A} (key : A → K) (val : A → V) l : ∀ acc,
  NoDup (key <$> l) → (∀ x, x ∈ l → key x ∉ acc.*1) →
  (foldl (λ acc x, dict_set (key x) (val x) acc) acc l).*1 = acc.*1 ++ (key <$> l).
Proof.
  induction l as [|x l IH]; intros acc Hnd Hnew; simpl.
  - by rewrite app_nil_r.
  - apply NoDup_cons in Hnd as [Hx Hnd].
    rewrite IH; [|done|].
    + rewrite dict_set_keys, decide_False by (apply Hnew, list_elem_of_here).
      by rewrite <- app_assoc.
    + intros y Hy. rewrite dict_set_keys,
        decide_False by (apply Hnew, list_elem_of_here).
      intros [Hin|Hin%list_elem_of_singleton]%elem_of_app.
      * by apply (Hnew y); [apply list_elem_of_further|].
      * apply Hx. rewrite <- Hin. by apply list_elem_of_fmap_2.
Qed.
End DictFacts.

Lemma list_filter_elem {A} (f : A → bool) l x : x ∈ List.filter f l ↔ x ∈ l ∧ f x = true.
Proof. rewrite !list_elem_of_In. apply filter_In. Qed.

Lemma list_filter_NoDup {A} (f : A → bool) l : NoDup l → NoDup (List.filter f l).
Proof.
  induction 1 as [|x l Hx Hl IH]; simpl; [constructor|].
  destruct (f x); [|done]. constructor; [|done].
  by intros [? _]%list_filter_elem.
Qed.

Lemma em_np_unique_elem (l : list Z) x : x ∈ Em.np_unique l ↔ x ∈ l.
Proof.
  unfold Em.np_unique. rewrite (merge_sort_Permutation Z.le (remove_dups l)).
  apply elem_of_remove_dups.
Qed.

Lemma em_np_unique_NoDup (l : list Z) : NoDup (Em.np_unique l).
Proof.
  unfold Em.np_unique. rewrite (merge_sort_Permutation Z.le (remove_dups l)).
  apply NoDup_remove_dups.
Qed.

Lemma take_at_elem {A} ps (l : list A) x : x ∈ Em.take_at ps l → x ∈ l.
Proof.
  unfold Em.take_at. intros (i & _ & Hi)%list_elem_of_omap.
  by eapply list_elem_of_lookup_2.
Qed.

Section DriverRuns.
Variable np_log : float → float.
Variable nbinom_pmf : float → float → float → float.
Variable digamma : float → float.
Variable np_sum : list float → float.
Variable peak_local_max : ndarray float → Z → option (ndarray Z) → list nat.
Variable connected_components : ndarray bool → ndarray nat.
Variable rng : Type.
Variable default_rng : Z → rng.
Variable rng_choice : rng → list float → Z → list float → result (list float * rng).

Abbreviation fit_pools :=
  (Em.fit_pools np_log nbinom_pmf digamma np_sum rng rng_choice).
Abbreviation build_samples := (Em.build_samples peak_local_max connected_components).
Abbreviation run_em :=
  (Em.run_em np_log nbinom_pmf digamma np_sum peak_local_max
             connected_components rng default_rng rng_choice).

(** The loop of [bin_samples], from any dict of pools. *)
Abbreviation file_bin X bins :=
  (λ (samples : dict Z (list float)) (label : Z),
     if (0 <? label)%Z
     then dict_set label
            (List.filter (λ x, 0 <? x)%float (Em.take_at (Em.bin_indices bins label) (flat X)))
            samples
     else samples).

Lemma bin_samples_keys X bins :
  (Em.bin_samples X bins).*1 = List.filter (Z.ltb 0) (Em.np_unique (flat bins)).
Proof.
  unfold Em.bin_samples.
  assert (Hacc : ∀ ls (acc : dict Z (list float)),
    NoDup ls → (∀ x, x ∈ ls → x ∉ acc.*1) →
    (foldl (file_bin X bins) acc ls).*1 = acc.*1 ++ List.filter (Z.ltb 0) ls).
  { induction ls as [|label ls IH]; intros acc Hnd Hnew; simpl.
    - by rewrite app_nil_r.
    - apply NoDup_cons in Hnd as [Hx Hnd].
      destruct (0 <? label)%Z.
      + rewrite IH; [|done|].
        * rewrite dict_set_keys, decide_False by (apply Hnew, list_elem_of_here).
          by rewrite <- app_assoc.
        * intros y Hy. rewrite dict_set_keys,
            decide_False by (apply Hnew, list_elem_of_here).
          intros [Hin|Hin%list_elem_of_singleton]%elem_of_app.
          -- by apply (Hnew y); [apply list_elem_of_further|].
          -- by subst.
      + apply IH; [done|]. intros y Hy. by apply Hnew, list_elem_of_further. }
  rewrite Hacc; [done|apply em_np_unique_NoDup|].
  intros x _. apply not_elem_of_nil.
Qed.

Lemma bin_samples_values X bins :
  Forall (λ pool : Z * list float,
            Forall (λ x, (0 <? x)%float = true ∧ x ∈ flat X) pool.2)
         (Em.bin_samples X bins).
Proof.
  unfold Em.bin_samples.
  assert (Hacc : ∀ ls (acc : dict Z (list float)),
    Forall (λ pool : Z * list float,
              Forall (λ x, (0 <? x)%float = true ∧ x ∈ flat X) pool.2) acc →
    Forall (λ pool : Z * list float,
              Forall (λ x, (0 <? x)%float = true ∧ x ∈ flat X) pool.2)
           (foldl (file_bin X bins) acc ls)).
  { induction ls as [|label ls IH]; intros acc Hall; simpl; [done|].
    apply IH. destruct (0 <? label)%Z; [|done].
    apply (dict_set_values
             (Forall (λ x, (0 <? x)%float = true ∧ x ∈ flat X))); [|done].
    apply Forall_forall. intros x [Hx Hpos]%list_filter_elem.
    split; [done|]. by eapply take_at_elem. }
  apply Hacc. constructor.
Qed.

(** The labels of the fitted pools are those of the pools, in order. *)
Lemma fit_pools_labels g d scale total w mu var max_iter precision samples fits :
  fit_pools g d scale total w mu var max_iter precision samples = Ok fits →
  fits.*1 = samples.*1.
Proof.
  revert g fits. induction samples as [|[label pool] rest IH]; intros g fits; simpl.
  - by intros [= <-].
  - destruct (Em.select_samples _ _ _ _ g d scale total pool) as [[sel g']|e];
      simpl; [|done].
    destruct (Em.nbn_em _ _ _ _ sel w mu var max_iter precision) as [res|e];
      simpl; [|done].
    destruct (fit_pools g' d scale total w mu var max_iter precision rest)
      as [fits'|e] eqn:Hrest; simpl; [|done].
    intros [= <-]. simpl. f_equal. by apply (IH g').
Qed.

(** With an integral budget and no sample at all, the first pool
    divides by zero. *)
Lemma fit_pools_no_samples g d w mu var max_iter precision samples :
  samples ≠ [] →
  fit_pools g d false 0 w mu var max_iter precision samples = Raise ZeroDivisionError.
Proof. by destruct samples as [|[label pool] rest]. Qed.

(** X8: without peaks, every sample of every pool is a strictly
    positive pixel value of [X] (so the logarithms that weight the
    down-sampling are taken of positive numbers only). *)
Theorem pools_hold_positive_pixels X min_distance bins :
  Forall (λ pool : Z * list float,
            Forall (λ x, (0 <? x)%float = true ∧ x ∈ flat X) pool.2)
         (build_samples X false min_distance bins).
Proof.
  destruct bins as [b|]; simpl.
  - apply bin_samples_values.
  - repeat constructor. simpl. apply Forall_forall. by intros x [? ?]%list_filter_elem.
Qed.

(** X9: with [bins] and without peaks, the mapping [run_em] returns
    has one entry per strictly positive value of [bins], in ascending
    order of [np.unique]: a value of [bins] is a key exactly when it is
    positive, so bin 0 and negative bins never are. *)
Theorem run_em_keys_are_positive_bins X min_distance downsample w mu var
    max_iter precision b seed os_entropy r :
  run_em X false min_distance downsample w mu var max_iter precision
         (Some b) seed os_entropy = Ok r →
  ∃ results,
    r = Em.PerBin results
    ∧ results.*1 = List.filter (Z.ltb 0) (Em.np_unique (flat b))
    ∧ NoDup results.*1
    ∧ ∀ label, label ∈ results.*1 ↔ label ∈ flat b ∧ (0 < label)%Z.
Proof.
  unfold Em.run_em, Em.run_em_fits. simpl.
  destruct (Em.downsample_scale downsample) as [scale|e]; simpl; [|done].
  destruct (fit_pools _ _ _ _ _ _ _ _ _ _) as [fits|e] eqn:Hfits; simpl; [|done].
  intros [= <-]. eexists. split; [reflexivity|].
  apply fit_pools_labels in Hfits. rewrite bin_samples_keys in Hfits.
  assert (Hnd : NoDup (List.filter (Z.ltb 0) (Em.np_unique (flat b)))).
  { apply list_filter_NoDup, em_np_unique_NoDup. }
  rewrite (dict_set_all_keys (λ f : Em.fit, f.1) (λ f : Em.fit, f.2.2)).
  - change ((λ f : Em.fit, f.1) <$> fits) with (fits.*1).
    rewrite Hfits. simpl. split; [done|]. split; [done|].
    intros label. rewrite list_filter_elem, em_np_unique_elem, Z.ltb_lt. done.
  - change ((λ f : Em.fit, f.1) <$> fits) with (fits.*1). by rewrite Hfits.
  - intros x _. apply not_elem_of_nil.
Qed.

(** X10: without peaks, when [X] has no strictly positive pixel and
    the budget is integral (the default [1e6] is), [run_em] raises
    [ZeroDivisionError] at [len(_samples) / total]: always without
    [bins], and with [bins] as soon as one bin is positive. *)
Theorem run_em_without_positive_pixel_raises X min_distance downsample w mu var
    max_iter precision bins seed os_entropy :
  Forall (λ x, (0 <? x)%float = false) (flat X) →
  Em.downsample_scale downsample = Ok false →
  match bins with
  | Some b => ∃ label, label ∈ flat b ∧ (0 < label)%Z
  | None => True
  end →
  run_em X false min_distance downsample w mu var max_iter precision
         bins seed os_entropy = Raise ZeroDivisionError.
Proof.
  intros Hx Hscale Hbins. unfold Em.run_em, Em.run_em_fits. rewrite Hscale. simpl.
  assert (Hempty : Forall (λ pool : Z * list float, pool.2 = [])
                     (build_samples X false min_distance bins)).
  { assert (Hall : Forall (λ pool : Z * list float,
              Forall (λ x, (0 <? x)%float = true ∧ x ∈ flat X) pool.2)
              (build_samples X false min_distance bins)).
    { destruct bins as [b|]; simpl.
      - apply bin_samples_values.
      - repeat constructor. simpl. apply Forall_forall. by intros x [? ?]%list_filter_elem. }
    eapply Forall_impl; [exact Hall|]. intros [label [|x pool]] Hpool; [done|].
    apply Forall_cons in Hpool as [[Hpos Hin] _].
    rewrite Forall_forall in Hx. rewrite (Hx x Hin) in Hpos. done. }
  assert (Htotal : sum_list (length ∘ snd <$> build_samples X false min_distance bins) = 0).
  { induction Hempty as [|pool pools Hp _ IH]; [done|].
    rewrite fmap_cons. cbn [sum_list]. rewrite IH. simpl. by rewrite Hp. }
  assert (Hsome : build_samples X false min_distance bins ≠ []).
  { destruct bins as [b|]; simpl; [|done].
    destruct Hbins as (label & Hin & Hpos). intros Hnil.
    assert (Hkey : label ∈ (Em.bin_samples X b).*1).
    { rewrite bin_samples_keys, list_filter_elem, em_np_unique_elem.
      split; [done|]. by apply Z.ltb_lt. }
    rewrite Hnil in Hkey. by apply elem_of_nil in Hkey. }
  simpl in Htotal. rewrite Htotal.
  by rewrite fit_pools_no_samples.
Qed.

(** X11: with peaks and without [bins], when the peak mask has no
    connected component (no peak was found), no pool is built and the
    final [results[0]] raises [KeyError]. *)
Theorem run_em_without_peaks_found_raises X min_distance downsample w mu var
    max_iter precision seed os_entropy scale :
  let b := with_flat X (assign_at (peak_local_max X min_distance None) true
                          (replicate (length (flat X)) false)) in
  Forall (λ label, label = 0) (flat (connected_components b)) →
  Em.downsample_scale downsample = Ok scale →
  run_em X true min_distance downsample w mu var max_iter precision
         None seed os_entropy = Raise KeyError.
Proof.
  intros b Hzero Hscale. unfold Em.run_em, Em.run_em_fits. rewrite Hscale. simpl.
  assert (Hnone : Em.peak_samples peak_local_max connected_components
                    X min_distance None = []).
  { unfold Em.peak_samples. fold b.
    set (labels := flat (connected_components b)) in *.
    assert (Hacc : ∀ is_ (st : dict Z (list float) * list nat),
      foldl (λ (st : dict Z (list float) * list nat) (i : nat),
               match labels !! i, flat X !! i with
               | Some label, Some x =>
                   if (0 <? label)%nat && negb (bool_decide (label ∈ st.2))
                   then (dict_append 0%Z x st.1, label :: st.2)
                   else st
               | _, _ => st
               end) st is_ = st).
    { induction is_ as [|i is_ IH]; intros st; simpl; [done|].
      destruct (labels !! i) as [label|] eqn:Hl; [|by apply IH].
      destruct (flat X !! i); [|by apply IH].
      rewrite Forall_forall in Hzero.
      rewrite (Hzero label (list_elem_of_lookup_2 _ _ _ Hl)). by apply IH. }
    by rewrite Hacc. }
  rewrite Hnone. reflexivity.
Qed.

(** X12: without peaks and without [bins], [run_em] with
    [max_iter <= 0] never returns: there is always the pool of key 0,
    and whatever the budget and the generator do, the call ends in an
    error (that of the unbound [isnan] of [nbn_em], unless an earlier
    step has raised). *)
Theorem run_em_without_iterations_raises X min_distance downsample w mu var
    max_iter precision seed os_entropy :
  (max_iter ≤ 0)%Z →
  ∃ e, run_em X false min_distance downsample w mu var max_iter precision
              None seed os_entropy = Raise e.
Proof.
  intros Hle. unfold Em.run_em, Em.run_em_fits.
  destruct (Em.downsample_scale downsample) as [scale|e]; simpl; [|by eauto].
  destruct (Em.select_samples _ _ _ _ _ _ _ _ _) as [[sel g']|e]; simpl; [|by eauto].
  unfold Em.nbn_em. replace (Z.to_nat max_iter) with 0 by lia. simpl. by eauto.
Qed.
End DriverRuns.

Lemma run_em_keys_are_positive_bins_witness :
  ∃ results,
    Em.PerBin [(1%Z, ((0.5, 0.5), (10, 900), (0.5, 0.75))%float)]
    = Em.PerBin results
    ∧ results.*1 = List.filter (Z.ltb 0) (Em.np_unique (flat Inputs.bins2))
    ∧ NoDup results.*1
    ∧ ∀ label, label ∈ results.*1 ↔ label ∈ flat Inputs.bins2 ∧ (0 < label)%Z.
Proof.
  apply (run_em_keys_are_positive_bins Inputs.ident Inputs.flat_pmf Inputs.ident
           Inputs.left_sum Inputs.no_peaks Lib.connected_components Z id
           Inputs.first_k Inputs.X2 21 (Em.PyFloat 0.5) (0.5, 0.5)%float
           (10, 300)%float (20, 400)%float 1 1e-6%float Inputs.bins2
           (Some 7%Z) 0%Z).
  vm_compute. reflexivity.
Defined.

Lemma run_em_without_positive_pixel_raises_witness :
  Em.run_em Inputs.ident Inputs.flat_pmf Inputs.ident Inputs.left_sum
    Inputs.no_peaks Lib.connected_components Z id Inputs.first_k
    (NdArray 1 2 [0; 0]%float) false 21 (Em.PyFloat 1e6) (0.5, 0.5)%float
    (10, 300)%float (20, 400)%float 2000 1e-6%float None (Some 7%Z) 0%Z
  = Raise ZeroDivisionError.
Proof.
  apply (run_em_without_positive_pixel_raises Inputs.ident Inputs.flat_pmf
           Inputs.ident Inputs.left_sum Inputs.no_peaks Lib.connected_components
           Z id Inputs.first_k (NdArray 1 2 [0; 0]%float) 21 (Em.PyFloat 1e6)
           (0.5, 0.5)%float (10, 300)%float (20, 400)%float 2000 1e-6%float
           None (Some 7%Z) 0%Z).
  - repeat constructor.
  - vm_compute. reflexivity.
  - exact I.
Defined.

Lemma run_em_without_peaks_found_raises_witness :
  Em.run_em Inputs.ident Inputs.flat_pmf Inputs.ident Inputs.left_sum
    Inputs.no_peaks Lib.connected_components Z id Inputs.first_k
    Inputs.X2 true 21 (Em.PyFloat 0.5) (0.5, 0.5)%float
    (10, 300)%float (20, 400)%float 2000 1e-6%float None (Some 7%Z) 0%Z
  = Raise KeyError.
Proof.
  apply (run_em_without_peaks_found_raises Inputs.ident Inputs.flat_pmf
           Inputs.ident Inputs.left_sum Inputs.no_peaks Lib.connected_components
           Z id Inputs.first_k Inputs.X2 21 (Em.PyFloat 0.5)
           (0.5, 0.5)%float (10, 300)%float (20, 400)%float 2000 1e-6%float
           (Some 7%Z) 0%Z true).
  - vm_compute. repeat constructor.
  - vm_compute. reflexivity.
Defined.

Lemma run_em_without_iterations_raises_witness :
  ∃ e, Em.run_em Inputs.ident Inputs.flat_pmf Inputs.ident Inputs.left_sum
         Inputs.no_peaks Lib.connected_components Z id Inputs.first_k
         Inputs.X2 false 21 (Em.PyFloat 0.5) (0.5, 0.5)%float
         (10, 300)%float (20, 400)%float 0 1e-6%float None (Some 7%Z) 0%Z
       = Raise e.
Proof.
  apply (run_em_without_iterations_raises Inputs.ident Inputs.flat_pmf
           Inputs.ident Inputs.left_sum Inputs.no_peaks Lib.connected_components
           Z id Inputs.first_k Inputs.X2 21 (Em.PyFloat 0.5)
           (0.5, 0.5)%float (10, 300)%float (20, 400)%float 0 1e-6%float
           (Some 7%Z) 0%Z).
  lia.
Defined.

(* ===================================================================== *)
(** * Further results: the budget of [run_em] *)
(* ===================================================================== *)

(** [int(f)] on the two kinds of non-finite floats. *)
Lemma to_int_nan f : PrimFloat.is_nan f = true → F.to_int f = Raise ValueError.
Proof.
  unfold PrimFloat.is_nan, F.to_int. rewrite FloatAxioms.eqb_spec.
  destruct (Prim2SF f) as [s|s| |s m e]; try done.
  - by destruct s.
  - unfold SFeqb, SFcompare. rewrite Z.compare_refl, Pos.compare_refl.
    by destruct s.
Qed.

Lemma to_int_infinity f :
  PrimFloat.is_infinity f = true → F.to_int f = Raise OverflowError.
Proof.
  unfold PrimFloat.is_infinity, F.to_int. rewrite FloatAxioms.eqb_spec, FloatAxioms.abs_spec.
  change (Prim2SF infinity) with (S754_infinity false).
  destruct (Prim2SF f) as [s|s| |s m e]; try done.
Qed.

Lemma dict_append_total {K A} `{EqDecision K} (k : K) (x : A) d :
  sum_list (length ∘ snd <$> dict_append k x d)
  = S (sum_list (length ∘ snd <$> d)).
Proof.
  induction d as [|[k' v'] d IH]; [done|]. cbn [dict_append].
  destruct (decide (k = k')); rewrite !fmap_cons; cbn [sum_list].
  - simpl. rewrite length_app. simpl. lia.
  - rewrite IH. lia.
Qed.

Section BudgetFacts.
Variable np_log : float → float.
Variable nbinom_pmf : float → float → float → float.
Variable digamma : float → float.
Variable np_sum : list float → float.
Variable peak_local_max : ndarray float → Z → option (ndarray Z) → list nat.
Variable connected_components : ndarray bool → ndarray nat.
Variable rng : Type.
Variable default_rng : Z → rng.
Variable rng_choice : rng → list float → Z → list float → result (list float * rng).

Abbreviation run_em :=
  (Em.run_em np_log nbinom_pmf digamma np_sum peak_local_max
             connected_components rng default_rng rng_choice).
(** X13: a budget that is not a finite number is rejected by
    [int(downsample)] before any pool is fitted: [run_em] raises
    [ValueError] for NaN and [OverflowError] for an infinity, whatever
    its other arguments are. *)
Theorem run_em_rejects_non_finite_budget X use_peaks min_distance f w mu var
    max_iter precision bins seed os_entropy :
  (PrimFloat.is_nan f = true →
   run_em X use_peaks min_distance (Em.PyFloat f) w mu var max_iter precision
          bins seed os_entropy = Raise ValueError)
  ∧ (PrimFloat.is_infinity f = true →
     run_em X use_peaks min_distance (Em.PyFloat f) w mu var max_iter precision
            bins seed os_entropy = Raise OverflowError).
Proof.
  unfold Em.run_em, Em.run_em_fits, Em.downsample_scale, Em.py_int.
  split; intros Hf.
  - by rewrite (to_int_nan f Hf).
  - by rewrite (to_int_infinity f Hf).
Qed.

End BudgetFacts.

Section PeakFacts.
Variable peak_local_max : ndarray float → Z → option (ndarray Z) → list nat.
Variable connected_components : ndarray bool → ndarray nat.

Abbreviation peak_samples := (Em.peak_samples peak_local_max connected_components).

(** X14: with peaks, the pools hold exactly one sample per connected
    blob of the peak mask: their sizes add up to the number of distinct
    positive labels of the component image (which has one label per
    pixel of [X]). *)
Theorem peak_pools_hold_one_sample_per_blob X min_distance bins :
  let b := with_flat X (assign_at (peak_local_max X min_distance bins) true
                          (replicate (length (flat X)) false)) in
  let labels := flat (connected_components b) in
  length labels = length (flat X) →
  sum_list (length ∘ snd <$> peak_samples X min_distance bins)
  = length (remove_dups (List.filter (Nat.ltb 0) labels)).
Proof.
  intros b labels Hlen. unfold Em.peak_samples. fold b. fold labels.
  set (visit := λ (st : dict Z (list float) * list nat) (i : nat), _).
  assert (Hinv : ∀ n, n ≤ length labels →
    let st := foldl visit ([], []) (seq 0 n) in
    sum_list (length ∘ snd <$> st.1) = length st.2
    ∧ NoDup st.2
    ∧ ∀ label, label ∈ st.2 ↔ 0 < label ∧ label ∈ take n labels).
  { induction n as [|n IH]; intros Hn.
    - simpl. split; [done|]. split; [constructor|].
      intros label. rewrite take_0. split; [by intros ?%elem_of_nil|].
      by intros [_ ?%elem_of_nil].
    - rewrite seq_S, foldl_app. simpl.
      destruct IH as (Hsum & Hnd & Hel); [lia|].
      set (st := foldl visit ([], []) (seq 0 n)) in *.
      destruct (lookup_lt_is_Some_2 labels n) as [label Hl]; [lia|].
      destruct (lookup_lt_is_Some_2 (flat X) n) as [x Hx]; [lia|].
      rewrite (take_S_r _ _ _ Hl).
      assert (Hstep : ∃ key,
                visit st n
                = if (0 <? label)%nat && negb (bool_decide (label ∈ st.2))
                  then (dict_append key x st.1, label :: st.2) else st).
      { eexists. unfold visit. rewrite Hl, Hx. reflexivity. }
      destruct Hstep as [key ->].
      destruct (Nat.ltb_spec 0 label) as [Hpos|Hpos]; simpl.
      + destruct (decide (label ∈ st.2)) as [Hin|Hin].
        * rewrite bool_decide_eq_true_2 by done. simpl.
          split; [done|]. split; [done|]. intros l. rewrite Hel, elem_of_app.
          rewrite list_elem_of_singleton. split; [by intros [? ?]; auto|].
          intros [? [?| ->]]; [done|]. by apply Hel.
        * rewrite bool_decide_eq_false_2 by done. simpl.
          rewrite dict_append_total, Hsum.
          split; [done|]. split; [by constructor|].
          intros l. rewrite elem_of_cons, Hel, elem_of_app, list_elem_of_singleton.
          split.
          -- intros [->|[? ?]]; auto.
          -- intros [? [?| ->]]; auto.
      + split; [done|]. split; [done|]. intros l.
        rewrite Hel, elem_of_app, list_elem_of_singleton.
        split; [by intros [? ?]; auto|]. intros [? [?| ->]]; [done|lia]. }
  destruct (Hinv (length labels)) as (Hsum & Hnd & Hel); [done|].
  rewrite Hsum. apply Permutation_length, NoDup_Permutation.
  - done.
  - apply NoDup_remove_dups.
  - intros label. rewrite Hel, firstn_all, elem_of_remove_dups.
    rewrite !list_elem_of_In, filter_In, Nat.ltb_lt. tauto.
Qed.
End PeakFacts.

Lemma run_em_rejects_non_finite_budget_witness :
  Em.run_em Inputs.ident Inputs.flat_pmf Inputs.ident Inputs.left_sum
    Inputs.no_peaks Lib.connected_components Z id Inputs.first_k
    Inputs.X2 false 21 (Em.PyFloat nan) (0.5, 0.5)%float
    (10, 300)%float (20, 400)%float 2000 1e-6%float None (Some 7%Z) 0%Z
  = Raise ValueError
  ∧ Em.run_em Inputs.ident Inputs.flat_pmf Inputs.ident Inputs.left_sum
      Inputs.no_peaks Lib.connected_components Z id Inputs.first_k
      Inputs.X2 false 21 (Em.PyFloat infinity) (0.5, 0.5)%float
      (10, 300)%float (20, 400)%float 2000 1e-6%float None (Some 7%Z) 0%Z
    = Raise OverflowError.
Proof.
  split.
  - apply (run_em_rejects_non_finite_budget Inputs.ident Inputs.flat_pmf
             Inputs.ident Inputs.left_sum Inputs.no_peaks Lib.connected_components
             Z id Inputs.first_k Inputs.X2 false 21 nan (0.5, 0.5)%float
             (10, 300)%float (20, 400)%float 2000 1e-6%float None (Some 7%Z) 0%Z).
    reflexivity.
  - apply (run_em_rejects_non_finite_budget Inputs.ident Inputs.flat_pmf
             Inputs.ident Inputs.left_sum Inputs.no_peaks Lib.connected_components
             Z id Inputs.first_k Inputs.X2 false 21 infinity (0.5, 0.5)%float
             (10, 300)%float (20, 400)%float 2000 1e-6%float None (Some 7%Z) 0%Z).
    reflexivity.
Defined.

Lemma peak_pools_hold_one_sample_per_blob_witness :
  sum_list (length ∘ snd
              <$> Em.peak_samples (λ _ _ _, [0; 3]) Lib.connected_components
                    (NdArray 1 5 [5; 1; 1; 7; 1]%float) 21 None)
  = length (remove_dups
              (List.filter (Nat.ltb 0)
                 (flat (Lib.connected_components
                          (NdArray 1 5 [true; false; false; true; false]))))).
Proof.
  apply (peak_pools_hold_one_sample_per_blob (λ _ _ _, [0; 3])
           Lib.connected_components (NdArray 1 5 [5; 1; 1; 7; 1]%float) 21 None).
  vm_compute. reflexivity.
Defined.

(* ===================================================================== *)
(** * Further results: freezing, masking and restoring labels *)
(* ===================================================================== *)

Lemma where_from_NoDup {A} (P : A → bool) l : ∀ i, NoDup (where_from P i l).
Proof.
  induction l as [|x l IH]; intros i; simpl; [constructor|].
  destruct (P x); [|done]. constructor; [|done].
  intros (y & Hle & _)%where_from_elem. lia.
Qed.

(** [np.bincount]: the entry of a value that occurs is its number of
    occurrences. *)
Lemma bincount_lookup (l : list nat) v :
  v ∈ l →
  Label.bincount l !! v = Some (length (List.filter (Nat.eqb v) l)).
Proof.
  intros Hin. unfold Label.bincount.
  destruct l as [|x l']; [by apply elem_of_nil in Hin|].
  set (l := x :: l') in *.
  rewrite list_lookup_fmap, lookup_seq_lt; [done|].
  pose proof (max_list_elem_of_le v l Hin). lia.
Qed.

Section FreezeFacts.
Variable max_area : Z.

(** The body of the loop of lines 142-147. *)
Abbreviation freeze_step :=
  (λ (st : Label.labels_t * Label.saved_t) (label : nat),
     if (0 <? label)%nat
     then (with_flat st.1 (assign_at (Label.where_eq label (flat st.1)) 0 (flat st.1)),
           dict_set label (Label.where_eq label (flat st.1)) st.2)
     else st).

Lemma freeze_steps_shape ls : ∀ st : Label.labels_t * Label.saved_t,
  rows (foldl freeze_step st ls).1 = rows st.1
  ∧ cols (foldl freeze_step st ls).1 = cols st.1
  ∧ length (flat (foldl freeze_step st ls).1) = length (flat st.1).
Proof.
  induction ls as [|label ls IH]; intros st; [done|]. cbn [foldl].
  destruct (0 <? label)%nat.
  - destruct (IH (with_flat st.1
                    (assign_at (Label.where_eq label (flat st.1)) 0 (flat st.1)),
                  dict_set label (Label.where_eq label (flat st.1)) st.2))
      as (-> & -> & ->).
    simpl. by rewrite assign_at_length.
  - apply IH.
Qed.

Lemma freeze_steps_lookup ls p : ∀ (st : Label.labels_t * Label.saved_t) u,
  flat st.1 !! p = Some u →
  flat (foldl freeze_step st ls).1 !! p
  = Some (if (0 <? u)%nat && bool_decide (u ∈ ls) then 0 else u).
Proof.
  induction ls as [|label ls IH]; intros st u Hu.
  - cbn [foldl]. rewrite Hu. by rewrite bool_decide_eq_false_2, andb_false_r
      by apply not_elem_of_nil.
  - cbn [foldl].
    assert (Hstep : flat (freeze_step st label).1 !! p
                    = Some (if (0 <? label)%nat && bool_decide (u = label)
                            then 0 else u)).
    { destruct (0 <? label)%nat; simpl; [|done].
      rewrite assign_at_lookup, Hu. simpl.
      destruct (decide (p ∈ Label.where_eq label (flat st.1))) as [Hin|Hin].
      - apply where_eq_elem in Hin. assert (u = label) as -> by congruence.
        by rewrite bool_decide_eq_true_2.
      - rewrite bool_decide_eq_false_2; [done|].
        intros ->. apply Hin. by apply where_eq_elem. }
    etrans; [exact (IH _ _ Hstep)|]. f_equal.
    destruct (decide (u = label)) as [->|Hne].
    + rewrite (bool_decide_eq_true_2 (label = label)) by done.
      rewrite (bool_decide_eq_true_2 (label ∈ label :: ls))
        by apply list_elem_of_here.
      destruct (0 <? label)%nat eqn:Hpos; simpl; [done|]. by rewrite Hpos.
    + rewrite (bool_decide_eq_false_2 (u = label)) by done.
      rewrite andb_false_r.
      replace (bool_decide (u ∈ label :: ls)) with (bool_decide (u ∈ ls)); [done|].
      apply bool_decide_ext. rewrite elem_of_cons.
      split; [by right|]. by intros [?|?]; [subst|].
Qed.

Lemma freeze_shape (e : Label.labels_t) saved :
  rows (Label.freeze max_area e saved).1 = rows e
  ∧ cols (Label.freeze max_area e saved).1 = cols e
  ∧ length (flat (Label.freeze max_area e saved).1) = length (flat e).
Proof. unfold Label.freeze. apply (freeze_steps_shape _ (e, saved)). Qed.

(** X15: the freezing pass at the head of each iteration leaves the
    shape alone and rewrites the image pixel by pixel: a pixel of a
    positive label whose area (its number of pixels on entry) has
    reached [max_area] becomes 0; every other pixel, background
    included, keeps its value. *)
Theorem freeze_erases_exactly_the_full_labels (e : Label.labels_t) saved :
  let e' := (Label.freeze max_area e saved).1 in
  rows e' = rows e ∧ cols e' = cols e
  ∧ length (flat e') = length (flat e)
  ∧ ∀ p v,
      flat e !! p = Some v →
      flat e' !! p
      = Some (if (0 <? v)%nat
                 && (max_area <=? Z.of_nat (length (List.filter (Nat.eqb v) (flat e))))%Z
              then 0 else v).
Proof.
  intros e'. destruct (freeze_shape e saved) as (Hr & Hc & Hl).
  split; [exact Hr|]. split; [exact Hc|]. split; [exact Hl|].
  subst e'. unfold Label.freeze.
  set (reached := where_ _ (Label.bincount (flat e))).
  intros p v Hv.
  rewrite (freeze_steps_lookup reached p (e, saved) v Hv).
  assert (Hin : v ∈ flat e) by (by eapply list_elem_of_lookup_2).
  assert (Hreached : bool_decide (v ∈ reached)
            = (max_area <=? Z.of_nat (length (List.filter (Nat.eqb v) (flat e))))%Z).
  { destruct (max_area <=? _)%Z eqn:Hfull.
    - apply bool_decide_eq_true. apply where_elem.
      eexists. split; [by apply bincount_lookup|done].
    - apply bool_decide_eq_false. intros (c & Hc' & Hle)%where_elem.
      rewrite bincount_lookup in Hc' by done. injection Hc' as <-. congruence. }
  by rewrite Hreached.
Qed.
End FreezeFacts.

Lemma restore_shape saved : ∀ e,
  rows (Label.restore saved e) = rows e
  ∧ cols (Label.restore saved e) = cols e
  ∧ length (flat (Label.restore saved e)) = length (flat e).
Proof.
  unfold Label.restore.
  induction saved as [|[label ps] saved IH]; intros e; simpl; [done|].
  destruct (IH (with_flat e (assign_at ps label (flat e)))) as (-> & -> & ->).
  simpl. by rewrite assign_at_length.
Qed.

(** A pixel that no saved entry lists is not written. *)
Lemma restore_untouched saved p : ∀ e,
  (∀ item, item ∈ saved → p ∉ item.2) →
  flat (Label.restore saved e) !! p = flat e !! p.
Proof.
  unfold Label.restore.
  induction saved as [|[label ps] saved IH]; intros e Hout; simpl; [done|].
  rewrite IH.
  - simpl. rewrite assign_at_lookup, decide_False; [done|].
    apply (Hout (label, ps)), list_elem_of_here.
  - intros item Hitem. by apply Hout, list_elem_of_further.
Qed.

(** X16: the final loop writes the saved labels in insertion order,
    so on a pixel listed by several entries the last one wins: a pixel
    of the entry [(label, ps)] ends with [label] whenever no later entry
    lists it, whatever earlier entries do. *)
Theorem restore_last_entry_wins s1 label ps s2 (e : Label.labels_t) p :
  p ∈ ps → p < length (flat e) →
  (∀ item, item ∈ s2 → p ∉ item.2) →
  flat (Label.restore (s1 ++ (label, ps) :: s2) e) !! p = Some label.
Proof.
  intros Hp Hlen Hlater.
  unfold Label.restore. rewrite foldl_app. simpl.
  fold (Label.restore s1 e).
  set (e1 := with_flat _ _).
  fold (Label.restore s2 e1). rewrite restore_untouched by done.
  unfold e1. simpl. rewrite assign_at_lookup, decide_True by done.
  destruct (restore_shape s1 e) as (_ & _ & Hl).
  rewrite <- Hl in Hlen. apply lookup_lt_is_Some in Hlen as [x ->]. done.
Qed.

Lemma restore_last_entry_wins_witness :
  flat (Label.restore ([(1, [0; 1; 2])] ++ (2, [2; 3; 4]) :: [])
          (NdArray 1 8 [0; 0; 0; 0; 0; 3; 3; 3])) !! 2 = Some 2.
Proof.
  apply (restore_last_entry_wins [(1, [0; 1; 2])] 2 [2; 3; 4] []
           (NdArray 1 8 [0; 0; 0; 0; 0; 3; 3; 3]) 2).
  - apply list_elem_of_here.
  - simpl. lia.
  - intros item Hin. by apply elem_of_nil in Hin.
Defined.

Section MaskFacts.
Variable expand_labels1 : Label.labels_t → Label.labels_t.

Abbreviation expand_step := (Label.expand_step expand_labels1).
Abbreviation expand_loop := (Label.expand_loop expand_labels1).
Abbreviation _expand_labels := (Label._expand_labels expand_labels1).

Lemma expand_loop_last n max_area mask : ∀ st,
  expand_loop (S n) max_area mask st
  = expand_step max_area mask (expand_loop n max_area mask st).
Proof.
  induction n as [|n IH]; intros st; [done|].
  change (expand_loop (S (S n)) max_area mask st)
    with (expand_loop (S n) max_area mask (expand_step max_area mask st)).
  by rewrite IH.
Qed.

(** After at least one iteration the working image is 0 outside the
    mask. *)
Lemma expand_loop_masked n max_area (m : ndarray bool) st p :
  flat m !! p = Some false →
  flat (expand_loop (S n) max_area (Some m) st).1 !! p = None
  ∨ flat (expand_loop (S n) max_area (Some m) st).1 !! p = Some 0.
Proof.
  intros Hm. rewrite expand_loop_last. unfold Label.expand_step.
  destruct (Label.freeze _ _ _) as [e saved]. simpl.
  rewrite lookup_zip_with, Hm.
  destruct (flat (expand_labels1 e) !! p); [by right|by left].
Qed.

(** X17: with a mask and [distance >= 1], a positive label on a pixel
    outside the mask can only come from the final restoring loop: if no
    saved (frozen) entry lists the pixel, the pixel is 0 in the result
    (wherever the result has a pixel). Grown labels never leave the
    mask. *)
Theorem expand_labels_stays_in_mask labels distance max_area (m : ndarray bool) p :
  (0 < distance)%Z →
  flat m !! p = Some false →
  (∀ item,
     item ∈ (expand_loop (Z.to_nat distance) max_area (Some m) (labels, [])).2 →
     p ∉ item.2) →
  flat (_expand_labels labels distance max_area (Some m)) !! p = None
  ∨ flat (_expand_labels labels distance max_area (Some m)) !! p = Some 0.
Proof.
  intros Hd Hm Hsaved. rewrite expand_labels_unfold.
  rewrite restore_untouched by done.
  destruct (Z.to_nat distance) as [|n] eqn:Hn; [lia|].
  by apply expand_loop_masked.
Qed.

(** X18: [_expand_labels] returns an array of the shape of [labels],
    provided the one-step expansion keeps shapes (as skimage does) and
    the mask, when given, has as many elements as [labels]. *)
Theorem expand_labels_keeps_shape labels distance max_area mask :
  (∀ a, length (flat a) = rows a * cols a →
        rows (expand_labels1 a) = rows a ∧ cols (expand_labels1 a) = cols a
        ∧ length (flat (expand_labels1 a)) = length (flat a)) →
  length (flat labels) = rows labels * cols labels →
  match mask with
  | Some m => length (flat m) = length (flat labels)
  | None => True
  end →
  let out := _expand_labels labels distance max_area mask in
  rows out = rows labels ∧ cols out = cols labels
  ∧ length (flat out) = length (flat labels).
Proof.
  intros Hexp Hwf Hmask out. subst out. rewrite expand_labels_unfold.
  assert (Hloop : ∀ n (st : Label.labels_t * Label.saved_t),
    rows st.1 = rows labels ∧ cols st.1 = cols labels
    ∧ length (flat st.1) = length (flat labels) →
    rows (expand_loop n max_area mask st).1 = rows labels
    ∧ cols (expand_loop n max_area mask st).1 = cols labels
    ∧ length (flat (expand_loop n max_area mask st).1) = length (flat labels)).
  { induction n as [|n IH]; intros st Hst; [done|]. simpl. apply IH.
    destruct Hst as (Hr & Hc & Hl).
    unfold Label.expand_step.
    pose proof (freeze_shape max_area st.1 st.2) as (Hr' & Hc' & Hl').
    destruct (Label.freeze max_area st.1 st.2) as [e saved]. simpl in *.
    destruct (Hexp e) as (Hr2 & Hc2 & Hl2); [congruence|].
    destruct mask as [m|]; simpl.
    - rewrite length_zip_with. split; [congruence|]. split; [congruence|]. lia.
    - split; [congruence|]. split; congruence. }
  destruct (Hloop (Z.to_nat distance) (labels, [])) as (Hr & Hc & Hl); [done|].
  destruct (restore_shape
              (expand_loop (Z.to_nat distance) max_area mask (labels, [])).2
              (expand_loop (Z.to_nat distance) max_area mask (labels, [])).1)
    as (Hr' & Hc' & Hl').
  split; [by etrans; [exact Hr'|]|]. split; by etrans; [eassumption|].
Qed.
End MaskFacts.

(** The one-step expansion of [Lib] keeps the shape of a well-formed
    image. *)
Lemma to_rows_shape {A} r c : ∀ l : list A,
  length l = r * c →
  length (Lib.to_rows r c l) = r
  ∧ Forall (λ row, length row = c) (Lib.to_rows r c l).
Proof.
  induction r as [|r IH]; intros l Hl; simpl; [by split|].
  destruct (IH (drop c l)) as [Hlen Hrows].
  { rewrite length_drop. lia. }
  split; [by rewrite Hlen|]. constructor; [|done].
  rewrite length_take. lia.
Qed.

Lemma map3_shape {A B C D} (f : A → B → C → D) (PA : A → Prop) (PB : B → Prop)
    (PC : C → Prop) (Q : D → Prop) :
  (∀ a b c, PA a → PB b → PC c → Q (f a b c)) →
  ∀ la lb lc, Forall PA la → Forall PB lb → Forall PC lc →
  Forall Q (Lib.map3 f la lb lc)
  ∧ length (Lib.map3 f la lb lc) = length la `min` (length lb `min` length lc).
Proof.
  intros Hf la. induction la as [|a la IH]; intros lb lc Ha Hb Hc; [by split|].
  destruct lb as [|b lb]; [by split|]. destruct lc as [|c lc]; [by split|].
  apply Forall_cons in Ha as [? ?]. apply Forall_cons in Hb as [? ?].
  apply Forall_cons in Hc as [? ?].
  destruct (IH lb lc) as [HQ Hlen]; [done..|]. simpl. split.
  - constructor; [by apply Hf|done].
  - by rewrite Hlen.
Qed.

Lemma expand_row_length c up cur down :
  length up = c → length cur = c → length down = c →
  length (Lib.expand_row up cur down) = c.
Proof.
  intros Hu Hc Hd. unfold Lib.expand_row.
  rewrite !length_zip_with, length_app. cbn [length].
  destruct cur; cbn [tail length] in *; lia.
Qed.

Lemma concat_rows_length {A} c (rws : list (list A)) :
  Forall (λ row, length row = c) rws → length (concat rws) = length rws * c.
Proof.
  induction 1 as [|row rws Hrow _ IH]; simpl; [done|].
  rewrite length_app. lia.
Qed.

Lemma lib_expand_labels1_shape (a : Label.labels_t) :
  length (flat a) = rows a * cols a →
  rows (Lib.expand_labels1 a) = rows a ∧ cols (Lib.expand_labels1 a) = cols a
  ∧ length (flat (Lib.expand_labels1 a)) = length (flat a).
Proof.
  intros Hwf. split; [done|]. split; [done|].
  unfold Lib.expand_labels1, Lib.on_rows, Lib.with_neighbours, with_flat.
  cbn [flat].
  destruct (to_rows_shape (rows a) (cols a) (flat a) Hwf) as [Hlen Hrows].
  set (rws := Lib.to_rows (rows a) (cols a) (flat a)) in *.
  destruct (map3_shape Lib.expand_row
              (λ row, length row = cols a) (λ row, length row = cols a)
              (λ row, length row = cols a) (λ row, length row = cols a)
              (expand_row_length (cols a))
              (replicate (cols a) 0 :: rws) rws (tail rws ++ [replicate (cols a) 0]))
    as [HQ Hl].
  - constructor; [apply length_replicate|done].
  - done.
  - apply Forall_app. split.
    + destruct Hrows; [constructor|done].
    + repeat constructor. apply length_replicate.
  - rewrite (concat_rows_length (cols a)) by done.
    rewrite Hl, length_app, Hwf, <- Hlen. cbn [length]. f_equal.
    destruct rws; cbn [tail length]; lia.
Qed.

Lemma expand_labels_stays_in_mask_witness :
  flat (Label._expand_labels Lib.expand_labels1 (NdArray 1 4 [1; 0; 0; 0]) 2 10
          (Some (NdArray 1 4 [true; true; false; false]))) !! 2 = None
  ∨ flat (Label._expand_labels Lib.expand_labels1 (NdArray 1 4 [1; 0; 0; 0]) 2 10
            (Some (NdArray 1 4 [true; true; false; false]))) !! 2 = Some 0.
Proof.
  apply (expand_labels_stays_in_mask Lib.expand_labels1 (NdArray 1 4 [1; 0; 0; 0])
           2 10 (NdArray 1 4 [true; true; false; false]) 2).
  - lia.
  - reflexivity.
  - intros item Hin. vm_compute in Hin. by apply elem_of_nil in Hin.
Defined.

Lemma expand_labels_keeps_shape_witness :
  let out := Label._expand_labels Lib.expand_labels1 Inputs.row8 2 3 None in
  rows out = 1 ∧ cols out = 8 ∧ length (flat out) = 8.
Proof.
  apply (expand_labels_keeps_shape Lib.expand_labels1 Inputs.row8 2 3 None).
  - apply lib_expand_labels1_shape.
  - reflexivity.
  - exact I.
Defined.

(* ===================================================================== *)
(** * Further results: a label that is full never grows *)
(* ===================================================================== *)

Section DictLookups.
Context {K V : Type} `{EqDecision K}.

Lemma dict_get_set (k k' : K) (v : V) d :
  dict_get k (dict_set k' v d) = if decide (k = k') then Ok v else dict_get k d.
Proof.
  induction d as [|[k0 v0] d IH]; simpl.
  - by destruct (decide (k = k')).
  - destruct (decide (k' = k0)) as [->|Hne]; simpl.
    + by destruct (decide (k = k0)).
    + rewrite IH. destruct (decide (k = k0)) as [->|]; [|done].
      by rewrite decide_False.
Qed.

Lemma dict_set_NoDup (k : K) (v : V) d : NoDup d.*1 → NoDup (dict_set k v d).*1.
Proof.
  intros Hnd. rewrite dict_set_keys. destruct (decide (k ∈ d.*1)); [done|].
  apply NoDup_app. split; [done|]. split; [|apply NoDup_singleton].
  by intros x Hx ->%list_elem_of_singleton.
Qed.

Lemma dict_get_elem (k : K) (v v' : V) d :
  NoDup d.*1 → (k, v) ∈ d → dict_get k d = Ok v' → v = v'.
Proof.
  induction d as [|[k0 v0] d IH]; intros Hnd Hin Hget.
  { by apply elem_of_nil in Hin. }
  simpl in Hnd. apply NoDup_cons in Hnd as [Hnew Hnd]. simpl in Hget.
  apply elem_of_cons in Hin as [[= -> ->]|Hin].
  - rewrite decide_True in Hget by done. congruence.
  - destruct (decide (k = k0)) as [->|Hne]; [|by apply IH].
    exfalso. apply Hnew. by apply (list_elem_of_fmap_2 fst) in Hin.
Qed.
End DictLookups.

(** [np.where] lists the same positions on two buffers that satisfy
    the test at the same positions. *)
Lemma where_from_ext {A} (P : A → bool) : ∀ l1 l2 i,
  (∀ p, (∃ x, l1 !! p = Some x ∧ P x = true) ↔ (∃ y, l2 !! p = Some y ∧ P y = true)) →
  where_from P i l1 = where_from P i l2.
Proof.
  assert (Hnone : ∀ l i, (∀ p x, l !! p = Some x → P x = false) →
                         where_from P i l = []).
  { induction l as [|x l IH]; intros i Hl; simpl; [done|].
    rewrite (Hl 0 x) by done. apply IH. intros p y Hy. by apply (Hl (S p)). }
  assert (Hfalse : ∀ l : list A,
            (∀ p, ¬ ∃ x, l !! p = Some x ∧ P x = true) →
            ∀ p x, l !! p = Some x → P x = false).
  { intros l Hl p x Hx. destruct (P x) eqn:HP; [|done]. destruct (Hl p). eauto. }
  induction l1 as [|x l1 IH]; intros l2 i Hext.
  - simpl. symmetry. apply Hnone, Hfalse. intros p Hp.
    apply Hext in Hp as (y & Hy & _). done.
  - destruct l2 as [|y l2].
    + apply Hnone, Hfalse. intros p Hp.
      apply Hext in Hp as (z & Hz & _). done.
    + simpl.
      assert (Hxy : P x = P y).
      { pose proof (Hext 0) as H0. simpl in H0.
        destruct (P x) eqn:Hx, (P y) eqn:Hy; try done.
        - destruct H0 as [H0 _]. destruct H0 as (z & Hz & HPz); [by exists x|].
          congruence.
        - destruct H0 as [_ H0]. destruct H0 as (z & Hz & HPz); [by exists y|].
          congruence. }
      rewrite Hxy, (IH l2 (S i)); [done|].
      intros p. apply (Hext (S p)).
Qed.

Lemma where_eq_ext v (l1 l2 : list nat) :
  (∀ p, l1 !! p = Some v ↔ l2 !! p = Some v) →
  Label.where_eq v l1 = Label.where_eq v l2.
Proof.
  intros Hext. apply where_from_ext. intros p. split.
  - intros (x & Hx & ->%Nat.eqb_eq). exists x. split; [by apply Hext|apply Nat.eqb_refl].
  - intros (x & Hx & ->%Nat.eqb_eq). exists x. split; [by apply Hext|apply Nat.eqb_refl].
Qed.

Lemma bincount_lookup_inv (l : list nat) v c :
  Label.bincount l !! v = Some c → c = length (List.filter (Nat.eqb v) l).
Proof.
  unfold Label.bincount. destruct l as [|x l']; [done|].
  rewrite list_lookup_fmap. intros Hc.
  destruct (seq 0 _ !! v) as [v'|] eqn:Hv; [|done].
  apply lookup_seq in Hv as [-> _]. by injection Hc as <-.
Qed.

Lemma filter_absent (l : list nat) v : v ∉ l → List.filter (Nat.eqb v) l = [].
Proof.
  induction l as [|x l IH]; intros Hv; simpl; [done|].
  destruct (Nat.eqb_spec v x) as [->|Hne].
  - destruct Hv. apply list_elem_of_here.
  - apply IH. intros Hin. apply Hv. by apply list_elem_of_further.
Qed.

Section FrozenFacts.
Variable max_area : Z.

Abbreviation freeze_step :=
  (λ (st : Label.labels_t * Label.saved_t) (label : nat),
     if (0 <? label)%nat
     then (with_flat st.1 (assign_at (Label.where_eq label (flat st.1)) 0 (flat st.1)),
           dict_set label (Label.where_eq label (flat st.1)) st.2)
     else st).

Lemma freeze_steps_keys ls : ∀ st : Label.labels_t * Label.saved_t,
  NoDup st.2.*1 → NoDup (foldl freeze_step st ls).2.*1.
Proof.
  induction ls as [|label ls IH]; intros st Hnd; [done|]. cbn [foldl].
  apply IH. destruct (0 <? label)%nat; [|done]. by apply dict_set_NoDup.
Qed.

(** Labels the pass does not visit keep their entry of [saved]. *)
Lemma freeze_steps_skip L ls : ∀ st : Label.labels_t * Label.saved_t,
  L ∉ ls → dict_get L (foldl freeze_step st ls).2 = dict_get L st.2.
Proof.
  induction ls as [|label ls IH]; intros st Hnin; [done|]. cbn [foldl].
  rewrite IH by (intros Hin; apply Hnin; by apply list_elem_of_further).
  destruct (0 <? label)%nat; [|done]. simpl.
  rewrite dict_get_set, decide_False; [done|].
  intros ->. apply Hnin, list_elem_of_here.
Qed.

(** A label the pass visits is saved with the pixels it has on entry. *)
Lemma freeze_steps_save L (e : Label.labels_t) ls :
  0 < L →
  ∀ st : Label.labels_t * Label.saved_t,
  NoDup ls → L ∈ ls →
  (∀ p, flat st.1 !! p = Some L ↔ flat e !! p = Some L) →
  dict_get L (foldl freeze_step st ls).2 = Ok (Label.where_eq L (flat e)).
Proof.
  intros L_pos. induction ls as [|label ls IH]; intros st Hnd Hin Hsame.
  { by apply elem_of_nil in Hin. }
  apply NoDup_cons in Hnd as [Hnew Hnd]. cbn [foldl].
  destruct (decide (label = L)) as [->|Hne].
  - rewrite freeze_steps_skip by done.
    apply Nat.ltb_lt in L_pos as ->. simpl.
    rewrite dict_get_set, decide_True by done.
    f_equal. by apply where_eq_ext.
  - apply elem_of_cons in Hin as [->|Hin]; [done|].
    apply IH; [done|done|]. intros p. rewrite <- Hsame.
    destruct (0 <? label)%nat; [|done]. simpl.
    rewrite assign_at_lookup.
    destruct (decide (p ∈ Label.where_eq label (flat st.1))) as [Hp|Hp]; [|done].
    apply where_eq_elem in Hp. rewrite Hp. simpl.
    split; intros [= ?]; [lia|congruence].
Qed.

Lemma freeze_keys (e : Label.labels_t) saved :
  NoDup saved.*1 → NoDup (Label.freeze max_area e saved).2.*1.
Proof. intros Hnd. unfold Label.freeze. by apply freeze_steps_keys. Qed.

(** The values of the frozen image are values of the image, or 0. *)
Lemma freeze_values (e : Label.labels_t) saved v :
  v ∈ flat (Label.freeze max_area e saved).1 → v = 0 ∨ v ∈ flat e.
Proof.
  intros (p & Hp)%list_elem_of_lookup_1.
  destruct (freeze_shape max_area e saved) as (_ & _ & Hlen).
  assert (Hlt : p < length (flat e)).
  { rewrite <- Hlen. by eapply lookup_lt_Some. }
  apply lookup_lt_is_Some in Hlt as [u Hu].
  unfold Label.freeze in Hp.
  rewrite (freeze_steps_lookup _ p (e, saved) u Hu) in Hp.
  injection Hp as <-. destruct (andb _ _); [by left|right].
  by eapply list_elem_of_lookup_2.
Qed.

(** A full label is erased and saved with its pixels. *)
Lemma freeze_full_label L (e : Label.labels_t) saved :
  0 < L →
  L ∈ flat e →
  (max_area ≤ Z.of_nat (length (List.filter (Nat.eqb L) (flat e))))%Z →
  (L ∉ flat (Label.freeze max_area e saved).1)
  ∧ dict_get L (Label.freeze max_area e saved).2 = Ok (Label.where_eq L (flat e)).
Proof.
  intros L_pos Hin Hfull.
  assert (Hreached : L ∈ where_ (λ c, (max_area <=? Z.of_nat c)%Z)
                                (Label.bincount (flat e))).
  { apply where_elem. eexists. split; [by apply bincount_lookup|].
    by apply Z.leb_le. }
  split.
  - intros (p & Hp)%list_elem_of_lookup_1.
    destruct (freeze_shape max_area e saved) as (_ & _ & Hlen).
    assert (Hlt : p < length (flat e)).
    { rewrite <- Hlen. by eapply lookup_lt_Some. }
    apply lookup_lt_is_Some in Hlt as [u Hu].
    unfold Label.freeze in Hp.
    rewrite (freeze_steps_lookup _ p (e, saved) u Hu) in Hp.
    injection Hp as Hp.
    destruct (0 <? u)%nat eqn:Hu0; simpl in Hp; [|apply Nat.ltb_ge in Hu0; lia].
    destruct (bool_decide _) eqn:Hd; [lia|]. subst u.
    by apply bool_decide_eq_false in Hd.
  - unfold Label.freeze.
    apply freeze_steps_save; [done|apply where_from_NoDup|done|done].
Qed.

(** An absent label stays absent and keeps its entry of [saved]. *)
Lemma freeze_absent_label L (e : Label.labels_t) saved :
  0 < L →
  (0 < max_area)%Z → L ∉ flat e →
  (L ∉ flat (Label.freeze max_area e saved).1)
  ∧ dict_get L (Label.freeze max_area e saved).2 = dict_get L saved.
Proof.
  intros L_pos Hmax Hout. split.
  - intros [?|?]%freeze_values; [lia|done].
  - unfold Label.freeze. apply (freeze_steps_skip L _ (e, saved)).
    intros (c & Hc & Hle)%where_elem.
    apply bincount_lookup_inv in Hc. rewrite filter_absent in Hc by done.
    subst c. apply Z.leb_le in Hle. simpl in Hle. lia.
Qed.
End FrozenFacts.

(** What the restoring loop leaves on a pixel was there before, or is
    the label of an entry that lists the pixel. *)
Lemma restore_lookup_source saved p v : ∀ e : Label.labels_t,
  flat (Label.restore saved e) !! p = Some v →
  flat e !! p = Some v ∨ ∃ ps, (v, ps) ∈ saved ∧ p ∈ ps.
Proof.
  unfold Label.restore.
  induction saved as [|[label ps] saved IH]; intros e Hp; [by left|].
  simpl in Hp. apply IH in Hp as [Hp|(ps' & Hin & Hp)].
  - simpl in Hp. rewrite assign_at_lookup in Hp.
    destruct (decide (p ∈ ps)) as [Hps|Hps]; [|by left].
    destruct (flat e !! p); [|done]. injection Hp as <-.
    right. exists ps. split; [apply list_elem_of_here|done].
  - right. exists ps'. split; [by apply list_elem_of_further|done].
Qed.

Section NeverGrows.
Variable expand_labels1 : Label.labels_t → Label.labels_t.
(** The one-step expansion copies labels, it invents none. *)
Hypothesis expand_copies : ∀ a v, v ∈ flat (expand_labels1 a) → v = 0 ∨ v ∈ flat a.

Abbreviation expand_step := (Label.expand_step expand_labels1).
Abbreviation expand_loop := (Label.expand_loop expand_labels1).
Abbreviation _expand_labels := (Label._expand_labels expand_labels1).

Lemma apply_mask_values mask (e : Label.labels_t) v :
  v ∈ flat (Label.apply_mask mask e) → v = 0 ∨ v ∈ flat e.
Proof.
  destruct mask as [m|]; simpl; [|by right].
  intros (p & Hp)%list_elem_of_lookup_1. rewrite lookup_zip_with in Hp.
  destruct (flat e !! p) as [u|] eqn:Hu; [|done]. simpl in Hp.
  destruct (flat m !! p) as [[|]|]; simpl in Hp; [|left; congruence|done].
  right. injection Hp as <-. by eapply list_elem_of_lookup_2.
Qed.

(** Once a positive label is gone and saved, the loop never brings it
    back and never touches its entry. *)
Lemma expand_loop_frozen max_area mask L W n :
  0 < L → (0 < max_area)%Z →
  ∀ st : Label.labels_t * Label.saved_t,
    L ∉ flat st.1 → dict_get L st.2 = Ok W → NoDup st.2.*1 →
    (L ∉ flat (expand_loop n max_area mask st).1)
    ∧ dict_get L (expand_loop n max_area mask st).2 = Ok W
    ∧ NoDup (expand_loop n max_area mask st).2.*1.
Proof using expand_copies.
  intros HL Hmax. induction n as [|n IH]; intros st Hout Hget Hnd; [done|].
  simpl. apply IH; unfold Label.expand_step.
  - destruct (freeze_absent_label max_area L st.1 st.2 HL Hmax Hout) as [Hout' _].
    destruct (Label.freeze max_area st.1 st.2) as [e saved]. simpl in *.
    intros [?|[?|?]%expand_copies]%apply_mask_values; [lia|lia|done].
  - destruct (freeze_absent_label max_area L st.1 st.2 HL Hmax Hout) as [_ Hget'].
    destruct (Label.freeze max_area st.1 st.2) as [e saved]. simpl in *. congruence.
  - pose proof (freeze_keys max_area st.1 st.2 Hnd) as Hnd'.
    by destruct (Label.freeze max_area st.1 st.2) as [e saved].
Qed.

(** X19: a label that is already full when [_expand_labels] is called
    (a positive label with at least [max_area >= 1] pixels) never gains
    a pixel: with [distance >= 1] and an expansion step that only
    copies labels, every pixel that carries the label in the result
    carried it in the input. *)
Theorem full_label_never_grows labels distance max_area mask L p :
  0 < L → (0 < max_area)%Z → (0 < distance)%Z →
  (max_area ≤ Z.of_nat (length (List.filter (Nat.eqb L) (flat labels))))%Z →
  flat (_expand_labels labels distance max_area mask) !! p = Some L →
  flat labels !! p = Some L.
Proof using expand_copies.
  intros HL Hmax Hd Hfull Hout.
  assert (Hin : L ∈ flat labels).
  { destruct (List.filter (Nat.eqb L) (flat labels)) as [|x xs] eqn:Hf;
      [simpl in Hfull; lia|].
    assert (Hx : x ∈ List.filter (Nat.eqb L) (flat labels))
      by (rewrite Hf; apply list_elem_of_here).
    apply list_filter_elem in Hx as [Hx ->%Nat.eqb_eq]. done. }
  rewrite expand_labels_unfold in Hout.
  destruct (Z.to_nat distance) as [|n] eqn:Hn; [lia|].
  change (expand_loop (S n) max_area mask (labels, []))
    with (expand_loop n max_area mask (expand_step max_area mask (labels, [])))
    in Hout.
  destruct (expand_loop_frozen max_area mask L (Label.where_eq L (flat labels)) n
              HL Hmax (expand_step max_area mask (labels, [])))
    as (Habs & Hget & Hnd).
  - unfold Label.expand_step. simpl.
    destruct (freeze_full_label max_area L labels [] HL Hin Hfull) as [Hout' _].
    destruct (Label.freeze max_area labels []) as [e saved]. simpl in *.
    intros [?|[?|?]%expand_copies]%apply_mask_values; [lia|lia|done].
  - unfold Label.expand_step. simpl.
    destruct (freeze_full_label max_area L labels [] HL Hin Hfull) as [_ Hget].
    by destruct (Label.freeze max_area labels []) as [e saved].
  - unfold Label.expand_step. simpl.
    pose proof (freeze_keys max_area labels [] (NoDup_nil_2)) as Hnd.
    by destruct (Label.freeze max_area labels []) as [e saved].
  - apply restore_lookup_source in Hout as [Hout|(ps & Hps & Hp)].
    + destruct Habs. by eapply list_elem_of_lookup_2.
    + assert (ps = Label.where_eq L (flat labels)) as ->
        by (by eapply dict_get_elem).
      by apply where_eq_elem.
Qed.
End NeverGrows.

(** The one-step expansion of [Lib] copies labels. *)
Lemma zip_first_label_values (P : nat → Prop) xs : ∀ ys,
  Forall P xs → Forall P ys → Forall P (zip_with Lib.first_label xs ys).
Proof.
  induction xs as [|x xs IH]; intros [|y ys] Hx Hy; simpl; try constructor.
  - apply Forall_cons in Hx as [? ?]. apply Forall_cons in Hy as [? ?].
    unfold Lib.first_label. by destruct (0 <? x)%nat.
  - apply Forall_cons in Hx as [? ?]. apply Forall_cons in Hy as [? ?].
    by apply IH.
Qed.

Lemma to_rows_values {A} (P : A → Prop) r c : ∀ l : list A,
  Forall P l → Forall (Forall P) (Lib.to_rows r c l).
Proof.
  induction r as [|r IH]; intros l Hl; simpl; constructor.
  - by apply Forall_take.
  - by apply IH, Forall_drop.
Qed.

Lemma lib_expand_labels1_copies (a : Label.labels_t) v :
  v ∈ flat (Lib.expand_labels1 a) → v = 0 ∨ v ∈ flat a.
Proof.
  revert v. apply Forall_forall.
  set (P := λ v, v = 0 ∨ v ∈ flat a).
  unfold Lib.expand_labels1, Lib.on_rows, Lib.with_neighbours, with_flat.
  cbn [flat].
  assert (Hzero : Forall P (replicate (cols a) 0)).
  { apply Forall_replicate. by left. }
  assert (Hrows : Forall (Forall P) (Lib.to_rows (rows a) (cols a) (flat a))).
  { apply to_rows_values, Forall_forall. by right. }
  set (rws := Lib.to_rows (rows a) (cols a) (flat a)) in *.
  apply Forall_concat.
  apply (map3_shape Lib.expand_row (Forall P) (Forall P) (Forall P) (Forall P)).
  - intros up cur down Hup Hcur Hdown. unfold Lib.expand_row.
    repeat apply zip_first_label_values; try done.
    + constructor; [by left|done].
    + apply Forall_app. split; [|by repeat constructor; left].
      destruct Hcur; [constructor|done].
  - by constructor.
  - done.
  - apply Forall_app. split; [|by repeat constructor].
    destruct Hrows; [constructor|done].
Qed.

Lemma full_label_never_grows_witness :
  flat (Lib.expand_labels Inputs.row8 2 3 None) !! 0 = Some 1
  ∧ flat Inputs.row8 !! 0 = Some 1.
Proof.
  assert (Hrun : flat (Lib.expand_labels Inputs.row8 2 3 None) !! 0 = Some 1)
    by (vm_compute; reflexivity).
  split; [exact Hrun|].
  apply (full_label_never_grows Lib.expand_labels1 lib_expand_labels1_copies
           Inputs.row8 2 3 None 1 0).
  - lia.
  - lia.
  - lia.
  - vm_compute. discriminate.
  - exact Hrun.
Defined.

(* ===================================================================== *)
(** * Further results: the identifiers of the fragments *)
(* ===================================================================== *)

(** The oversized labels are distinct, positive, and index the area
    table. *)
Lemma oversized_facts areas max_area :
  NoDup (Label.oversized areas max_area)
  ∧ ∀ s, s ∈ Label.oversized areas max_area → 0 < s < length areas.
Proof.
  unfold Label.oversized. split.
  - apply list_filter_NoDup, where_from_NoDup.
  - intros s [Hin Hpos]%list_filter_elem.
    apply where_elem in Hin as (a & Ha & _). apply lookup_lt_Some in Ha.
    apply Nat.ltb_lt in Hpos. lia.
Qed.

(** The renaming of line 229 is one-to-one on positive labels. *)
Lemma new_label_inj sl ml l1 l2 :
  NoDup sl → (∀ s, s ∈ sl → s ≤ ml) →
  0 < l1 → 0 < l2 →
  Label.new_label sl ml l1 = Label.new_label sl ml l2 → l1 = l2.
Proof.
  intros Hnd Hle H1 H2 Heq.
  destruct (new_label_cases sl ml l1 H1) as [[Hl1 Hr1]|[Hl1 Hn1]],
           (new_label_cases sl ml l2 H2) as [[Hl2 Hr2]|[Hl2 Hn2]].
  - rewrite Heq in Hr1.
    pose proof (NoDup_lookup sl _ _ _ Hnd Hr1 Hr2). lia.
  - apply list_elem_of_lookup_2, Hle in Hr1. lia.
  - apply list_elem_of_lookup_2, Hle in Hr2. lia.
  - lia.
Qed.

Section FragmentFacts.
Variable connected_components_with_stats : ndarray bool → Label.labels_t * list nat.
Variable connected_components : ndarray bool → Label.labels_t.
Variable safe_erode : ndarray bool → Z → Z → Z → ndarray bool.
Variable expand_labels1 : Label.labels_t → Label.labels_t.

Abbreviation _label_connected_components :=
  (Label._label_connected_components connected_components_with_stats
     connected_components safe_erode expand_labels1).
Abbreviation expanded_of :=
  (Spec.expanded_of connected_components_with_stats connected_components
     safe_erode expand_labels1).

End FragmentFacts.

